(** * Schema visualizer: relationship inference, layout, edge paths, dragging
      and SQL export

    A shallow embedding of the script of the schema visualizer view
    (the [<script setup>] block: [loadSchema], [applyAutoLayout],
    [detectRelationships], [calculateConnectionPath], [handleDrag],
    [exportAsSQL], and around them [totalColumns], [primaryKeys],
    [isForeignKey], [getRelatedTables], [tableColor], [startDrag] and
    [stopDrag]) together with the properties checked against it.

    Conventions of the embedding.
    - JavaScript numbers that hold canvas coordinates are idealised as real
      numbers; a field that is [undefined] or [NaN] is [None] (both are falsy
      and both turn every arithmetic result into [NaN]).
    - Strings are [string]; the suffix test and the regular expression
      [/_id$/] only inspect the last three characters.
    - The reactive refs [tables], [relationships], [loading], ... are the
      fields of an explicit [State] record threaded through the operations.
    - A [TypeError] escaping an operation is the [Threw] outcome, returned
      next to the state as mutated up to that point. *)

From Stdlib Require Import Reals Lra Lia ZArith Bool String Ascii List.
From Stdlib Require Import DecimalString.
Import ListNotations.

Local Open Scope string_scope.
Local Open Scope list_scope.

(** ** Data model *)

(** A JSON scalar, as a column's [default] can carry. *)
Inductive JSValue : Type :=
| JUndefined
| JNull
| JBool (b : bool)
| JNumber (z : Z)
| JString (s : string).

(** Column descriptor. [primary], [unique] and [nullable] are only ever
    tested for truthiness, so they are kept as the truth value of the field
    (an absent field is [false]). *)
Record Column : Type := mkColumn {
  col_name : string;
  col_type : string;
  col_primary : bool;
  col_unique : bool;
  col_nullable : bool;
  col_default : JSValue
}.

(** A coordinate: [None] is [undefined]/[NaN]. *)
Definition num : Type := option R.

(** Table object. [tbl_columns = None] is a descriptor without a [columns]
    array; the geometry fields are [None] until a layout assigns them. *)
Record Table : Type := mkTable {
  tbl_name : string;
  tbl_columns : option (list Column);
  tbl_x : num;
  tbl_y : num;
  tbl_width : num;
  tbl_height : num
}.

Record Relationship : Type := mkRel {
  rel_from : string;
  rel_to : string;
  rel_column : string;
  rel_type : string
}.

(** The reactive refs of the component. *)
Record State : Type := mkState {
  tables : list Table;
  relationships : list Relationship;
  loading : bool;
  autoLayout : bool;
  svgWidth : R;
  svgHeight : R
}.

Definition setTables (st : State) (ts : list Table) : State :=
  mkState ts (relationships st) (loading st)
          (autoLayout st) (svgWidth st) (svgHeight st).

Definition setRelationships (st : State) (rels : list Relationship) : State :=
  mkState (tables st) rels (loading st)
          (autoLayout st) (svgWidth st) (svgHeight st).

Definition setLoading (st : State) (b : bool) : State :=
  mkState (tables st) (relationships st) b
          (autoLayout st) (svgWidth st) (svgHeight st).

(** How an operation ended. *)
Inductive outcome : Type :=
| Completed
| Threw.

(** A table descriptor as the provider sends it: no geometry yet. *)
Definition rawTable (n : string) (cols : list Column) : Table :=
  mkTable n (Some cols) None None None None.

(** A column with only a name and a type set. *)
Definition plainColumn (n ty : string) : Column :=
  mkColumn n ty false false false JUndefined.

(** A descriptor that carries its [columns] array. *)
Definition wellFormed (t : Table) : Prop := tbl_columns t <> None.

(** The columns of a table, none for a descriptor without the array. *)
Definition columnsOf (t : Table) : list Column :=
  match tbl_columns t with
  | Some cols => cols
  | None => []
  end.

(** ** String primitives *)

(** [s.endsWith(suffix)] *)
Definition endsWith (s suffix : string) : bool :=
  (String.length suffix <=? String.length s)%nat
  && (substring (String.length s - String.length suffix)
                (String.length suffix) s =? suffix).

(** [s.replace(/_id$/, '')]: the pattern is anchored at the end of the
    string, so at most the last three characters are removed. *)
Definition replace_id_suffix (s : string) : string :=
  if endsWith s "_id" then substring 0 (String.length s - 3) s else s.

(** ** Relationship inference *)

(** Body of the inner loop of [detectRelationships] for one column;
    [rels] is [relationships.value] and [push] appends at the end. *)
Definition visitColumn (tables : list Table) (table : Table)
    (rels : list Relationship) (column : Column) : list Relationship :=
  if endsWith (col_name column) "_id" || (col_name column =? "id") then
    let referencedTable := replace_id_suffix (col_name column) in
    if existsb (fun t => tbl_name t =? referencedTable) tables then
      rels ++ [mkRel referencedTable (tbl_name table) (col_name column)
                     "foreign_key"]
    else rels
  else rels.

(** The outer [for ... of tables.value] loop over the tables still to visit.
    Iterating [table.columns] of a descriptor without columns throws. *)
Fixpoint visitTables (tables todo : list Table) (rels : list Relationship)
  : list Relationship * outcome :=
  match todo with
  | [] => (rels, Completed)
  | table :: rest =>
      match tbl_columns table with
      | None => (rels, Threw)
      | Some cols =>
          visitTables tables rest (fold_left (visitColumn tables table) cols rels)
      end
  end.

(** [detectRelationships]: the first statement overwrites [relationships]
    with the empty array, then the loops push onto it. *)
Definition detectRelationships (st : State) : State * outcome :=
  let (rels, o) := visitTables (tables st) (tables st) [] in
  (setRelationships st rels, o).

(** The relationships pushed while one column is visited. *)
Definition emitted (tables : list Table) (table : Table) (column : Column)
  : list Relationship :=
  visitColumn tables table [] column.

(** [tables.value.some(t => t.name === n)] as a proposition. *)
Definition hasTable (tables : list Table) (n : string) : Prop :=
  exists t, In t tables /\ tbl_name t = n.

(** The relationship sequence of a model read off directly: tables in
    order, within a table its columns in order, per column what visiting it
    pushes. *)
Definition inferRelationships (ts : list Table) : list Relationship :=
  flat_map (fun table => flat_map (emitted ts table) (columnsOf table)) ts.

(** Where a relationship comes from: the table and the column that were
    being visited when it was pushed. *)
Definition originOf (r : Relationship) : string * string :=
  (rel_to r, rel_column r).

(** Every (table, column) pair of a model, tables in order and, within a
    table, columns in order. *)
Definition columnSlots (ts : list Table) : list (string * string) :=
  flat_map (fun table =>
              map (fun column => (tbl_name table, col_name column))
                  (columnsOf table)) ts.

(** [subsequence l1 l2]: [l1] is [l2] with some elements left out, the
    others in their original order. *)
Inductive subsequence {A : Type} : list A -> list A -> Prop :=
| sub_nil : subsequence [] []
| sub_skip (x : A) (l1 l2 : list A) :
    subsequence l1 l2 -> subsequence l1 (x :: l2)
| sub_take (x : A) (l1 l2 : list A) :
    subsequence l1 l2 -> subsequence (x :: l1) (x :: l2).

(** The part of a table that relationship inference reads. *)
Definition schemaOf (t : Table) : string * option (list Column) :=
  (tbl_name t, tbl_columns t).

(** ** Numbers *)

Definition num_lift2 (f : R -> R -> R) (a b : num) : num :=
  match a, b with
  | Some u, Some v => Some (f u v)
  | _, _ => None
  end.

Definition num_add : num -> num -> num := num_lift2 Rplus.
Definition num_sub : num -> num -> num := num_lift2 Rminus.
Definition num_div : num -> num -> num := num_lift2 Rdiv.

(** [Math.max] and [Math.min] on two arguments: [NaN] is contagious. *)
Definition Math_max : num -> num -> num := num_lift2 Rmax.
Definition Math_min : num -> num -> num := num_lift2 Rmin.

(** Truthiness of a number: [undefined], [NaN] and [0] are falsy. *)
Definition num_truthy (v : num) : bool :=
  match v with
  | Some r => if Req_dec_T r 0 then false else true
  | None => false
  end.

(** ** Layout engine *)

(** [array.forEach((table, index) => ...)] where the callback assigns fields
    of the table object and may throw; the tables after the one that threw
    are left untouched. *)
Fixpoint forEachFrom (callback : nat -> Table -> Table * outcome)
    (index : nat) (ts : list Table) : list Table * outcome :=
  match ts with
  | [] => ([], Completed)
  | table :: rest =>
      match callback index table with
      | (table', Threw) => (table' :: rest, Threw)
      | (table', Completed) =>
          let (rest', o) := forEachFrom callback (S index) rest in
          (table' :: rest', o)
      end
  end.

(** The four assignments shared by both layouts: [x], [y] and [width] are
    stored first, then [table.columns.length] is read for the height. *)
Definition assignGeometry (table : Table) (x y : R) : Table * outcome :=
  match tbl_columns table with
  | None =>
      (mkTable (tbl_name table) (tbl_columns table)
               (Some x) (Some y) (Some 280%R) (tbl_height table), Threw)
  | Some cols =>
      (mkTable (tbl_name table) (tbl_columns table)
               (Some x) (Some y) (Some 280%R)
               (Some (200 + INR (List.length cols) * 25)%R), Completed)
  end.

(** Callback of [applyAutoLayout]; [count] is [tables.value.length]. *)
Definition autoPlace (width height : R) (count : nat)
    (index : nat) (table : Table) : Table * outcome :=
  let centerX := (width / 2)%R in
  let centerY := (height / 2)%R in
  let radius := (Rmin width height / 3)%R in
  let angle := ((INR index * 2 * PI) / INR count)%R in
  assignGeometry table
    (centerX + radius * cos angle - 140)%R
    (centerY + radius * sin angle - 100)%R.

Definition autoLayoutTables (width height : R) (ts : list Table)
  : list Table * outcome :=
  forEachFrom (autoPlace width height (List.length ts)) 0 ts.

(** [applyAutoLayout] *)
Definition applyAutoLayout (st : State) : State * outcome :=
  let (ts, o) := autoLayoutTables (svgWidth st) (svgHeight st) (tables st) in
  (setTables st ts, o).

(** Callback of the default grid placement used when auto layout is off. *)
Definition gridPlace (index : nat) (table : Table) : Table * outcome :=
  assignGeometry table
    (100 + INR (index mod 3) * 350)%R
    (100 + INR (index / 3) * 250)%R.

Definition gridLayoutTables (ts : list Table) : list Table * outcome :=
  forEachFrom gridPlace 0 ts.

(** The [forEach] that sets the default positions in [loadSchema]. *)
Definition applyGridLayout (st : State) : State * outcome :=
  let (ts, o) := gridLayoutTables (tables st) in
  (setTables st ts, o).

(** The layout in geometric terms: the point at angle [2 pi i / N] on the
    circle of radius [min(W, H) / 3] around the canvas midpoint, and the
    derived size of a node. *)
Definition circleAngle (N i : nat) : R := (2 * PI * INR i / INR N)%R.

Definition circlePoint (W H : R) (N i : nat) : R * R :=
  ((W / 2 + Rmin W H / 3 * cos (circleAngle N i))%R,
   (H / 2 + Rmin W H / 3 * sin (circleAngle N i))%R).

Definition nodeWidth : R := 280%R.

Definition nodeHeight (columnCount : nat) : R :=
  (200 + 25 * INR columnCount)%R.

(** ** Loading *)

(** What the request to the provider resolved to. *)
Inductive Response : Type :=
| RequestFailed                      (* the awaited request rejected *)
| TablesAbsent                       (* [response.data.tables] is falsy *)
| TablesField (ts : list Table).     (* [response.data.tables] is an array *)

(** [tables.value[0]?.x] *)
Definition firstX (ts : list Table) : num :=
  match ts with
  | [] => None
  | t :: _ => tbl_x t
  end.

(** The [try] block of [loadSchema], from the moment the awaited request
    settles. *)
Definition loadSchemaBody (st : State) (resp : Response) : State * outcome :=
  match resp with
  | RequestFailed => (st, Threw)
  | TablesAbsent | TablesField _ =>
      let received := match resp with TablesField ts => ts | _ => [] end in
      let st := setTables st received in
      let (st, o) :=
        if autoLayout st then applyAutoLayout st
        else if negb (num_truthy (firstX (tables st))) then applyGridLayout st
        else (st, Completed) in
      match o with
      | Threw => (st, Threw)
      | Completed => detectRelationships st
      end
  end.

(** [loadSchema]: [loading] is raised, the body runs, the [catch] block only
    logs and the [finally] block lowers [loading] again. *)
Definition loadSchema (st : State) (resp : Response) : State :=
  setLoading (fst (loadSchemaBody (setLoading st true) resp)) false.

(** ** Edge path generator *)

(** [tables.value.find(t => t.name === n)] *)
Definition findTable (ts : list Table) (n : string) : option Table :=
  find (fun t => tbl_name t =? n) ts.

Definition two : num := Some 2%R.

Section Rendering.

(** Conversion of a number to text inside a template literal. *)
Variable numberToString : num -> string.

Definition calculateConnectionPath (ts : list Table)
    (relationship : Relationship) : string :=
  match findTable ts (rel_from relationship),
        findTable ts (rel_to relationship) with
  | Some fromTable, Some toTable =>
      let fromX := num_add (tbl_x fromTable) (tbl_width fromTable) in
      let fromY :=
        num_add (tbl_y fromTable) (num_div (tbl_height fromTable) two) in
      let toX := tbl_x toTable in
      let toY :=
        num_add (tbl_y toTable) (num_div (tbl_height toTable) two) in
      let midX := num_div (num_add fromX toX) two in
      "M " ++ numberToString fromX ++ " " ++ numberToString fromY
      ++ " C " ++ numberToString midX ++ " " ++ numberToString fromY
      ++ ", " ++ numberToString midX ++ " " ++ numberToString toY
      ++ ", " ++ numberToString toX ++ " " ++ numberToString toY
  | _, _ => ""
  end.

(** A cubic curve: start point, two control points, end point. *)
Record Cubic : Type := mkCubic {
  cub_start : num * num;
  cub_control1 : num * num;
  cub_control2 : num * num;
  cub_end : num * num
}.

(** The path text [M sx sy C c1x c1y, c2x c2y, ex ey] of a cubic. *)
Definition renderCubic (c : Cubic) : string :=
  "M " ++ numberToString (fst (cub_start c)) ++ " "
       ++ numberToString (snd (cub_start c))
  ++ " C " ++ numberToString (fst (cub_control1 c)) ++ " "
       ++ numberToString (snd (cub_control1 c))
  ++ ", " ++ numberToString (fst (cub_control2 c)) ++ " "
       ++ numberToString (snd (cub_control2 c))
  ++ ", " ++ numberToString (fst (cub_end c)) ++ " "
       ++ numberToString (snd (cub_end c)).

End Rendering.

(** Midpoint of the right edge of a table's rectangle. *)
Definition rightCenter (t : Table) : num * num :=
  (num_add (tbl_x t) (tbl_width t),
   num_add (tbl_y t) (num_div (tbl_height t) two)).

(** Midpoint of the left edge of a table's rectangle. *)
Definition leftCenter (t : Table) : num * num :=
  (tbl_x t, num_add (tbl_y t) (num_div (tbl_height t) two)).

(** The connector between two rectangles: both control points sit at the
    horizontal midpoint of the end points, each at the height of the end
    point next to it. *)
Definition connector (fromTable toTable : Table) : Cubic :=
  let s := rightCenter fromTable in
  let e := leftCenter toTable in
  let midX := num_div (num_add (fst s) (fst e)) two in
  mkCubic s (midX, snd s) (midX, snd e) e.

(** ** Interaction controller *)

Record MouseEvent : Type := mkMouseEvent {
  clientX : R;
  clientY : R
}.

(** What [handleDrag] reads besides the event and the dragged table: the
    canvas size, the container's bounding rectangle and [dragOffset]. *)
Record DragEnv : Type := mkDragEnv {
  drag_svgWidth : R;
  drag_svgHeight : R;
  containerLeft : R;
  containerTop : R;
  dragOffsetX : R;
  dragOffsetY : R
}.

(** Where the pointer asks the table to go, before clamping. *)
Definition dragTarget (env : DragEnv) (event : MouseEvent) : R * R :=
  ((clientX event - containerLeft env - dragOffsetX env)%R,
   (clientY event - containerTop env - dragOffsetY env)%R).

(** [handleDrag]: [dragTable] is the object being dragged ([None] when no
    drag is armed); the result is that object after the handler ran. *)
Definition handleDrag (env : DragEnv) (event : MouseEvent)
    (dragTable : option Table) : option Table :=
  match dragTable with
  | None => None
  | Some t =>
      let x := Some (clientX event - containerLeft env - dragOffsetX env)%R in
      let y := Some (clientY event - containerTop env - dragOffsetY env)%R in
      let x' :=
        Math_max (Some 0%R)
          (Math_min (num_sub (Some (drag_svgWidth env)) (tbl_width t)) x) in
      let y' :=
        Math_max (Some 0%R)
          (Math_min (num_sub (Some (drag_svgHeight env)) (tbl_height t)) y) in
      Some (mkTable (tbl_name t) (tbl_columns t) x' y'
                    (tbl_width t) (tbl_height t))
  end.

(** A drag: the handler run on each pointer move in turn. *)
Definition dragSequence (env : DragEnv) (events : list MouseEvent)
    (dragTable : option Table) : option Table :=
  fold_left (fun t event => handleDrag env event t) events dragTable.

(** The bounds invariant of a table on a canvas. *)
Definition withinCanvas (canvasWidth canvasHeight : R) (t : Table) : Prop :=
  exists x y w h,
    tbl_x t = Some x /\ tbl_y t = Some y /\
    tbl_width t = Some w /\ tbl_height t = Some h /\
    (0 <= x <= canvasWidth - w)%R /\ (0 <= y <= canvasHeight - h)%R.

(** ** Export serializer *)

Local Open Scope string_scope.

Definition newline : string := String (ascii_of_nat 10) EmptyString.

(** Truthiness of a JSON scalar. *)
Definition truthy (v : JSValue) : bool :=
  match v with
  | JUndefined => false
  | JNull => false
  | JBool b => b
  | JNumber z => negb (z =? 0)%Z
  | JString s => negb (s =? "")
  end.

(** Text of a JSON scalar inside a template literal. *)
Definition toString (v : JSValue) : string :=
  match v with
  | JUndefined => "undefined"
  | JNull => "null"
  | JBool true => "true"
  | JBool false => "false"
  | JNumber z => NilZero.string_of_int (Z.to_int z)
  | JString s => s
  end.

(** Callback of [table.columns.forEach((col, index) => ...)]: the text [sql]
    after the line of one column was appended; [count] is
    [table.columns.length]. *)
Definition appendColumn (count : nat) (sql : string) (index : nat)
    (col : Column) : string :=
  let sql := sql ++ "  " ++ col_name col ++ " " ++ col_type col in
  let sql := if col_primary col then sql ++ " PRIMARY KEY" else sql in
  let sql := if col_unique col then sql ++ " UNIQUE" else sql in
  let sql := if negb (col_nullable col) then sql ++ " NOT NULL" else sql in
  let sql :=
    if truthy (col_default col)
    then sql ++ " DEFAULT " ++ toString (col_default col) else sql in
  let sql := if (index <? count - 1)%nat then sql ++ "," else sql in
  sql ++ newline.

Fixpoint forEachColumn (count index : nat) (cols : list Column)
    (sql : string) : string :=
  match cols with
  | [] => sql
  | col :: rest =>
      forEachColumn count (S index) rest (appendColumn count sql index col)
  end.

(** [tables.value.forEach(table => ...)] of [exportAsSQL]; [None] when
    [table.columns.forEach] throws, in which case nothing is downloaded. *)
Fixpoint forEachTable (ts : list Table) (sql : string) : option string :=
  match ts with
  | [] => Some sql
  | table :: rest =>
      let sql := sql ++ "-- Table: " ++ tbl_name table ++ newline in
      let sql := sql ++ "CREATE TABLE " ++ tbl_name table ++ " (" ++ newline in
      match tbl_columns table with
      | None => None
      | Some cols =>
          forEachTable rest
            (forEachColumn (List.length cols) 0 cols sql
             ++ ");" ++ newline ++ newline)
      end
  end.

(** [exportAsSQL]: the text handed to the download link; [now] is
    [new Date().toISOString()]. *)
Definition exportAsSQL (now : string) (ts : list Table) : option string :=
  forEachTable ts
    ("-- Database Schema Export" ++ newline
     ++ "-- Generated: " ++ now ++ newline ++ newline).

(** The exporter's output read as DDL text. *)

(** One column definition: name, type keyword and the constraint keywords
    selected by [withDefault]. *)
Definition columnDefinition (withDefault : JSValue -> bool) (col : Column)
  : string :=
  "  " ++ col_name col ++ " " ++ col_type col
  ++ (if col_primary col then " PRIMARY KEY" else "")
  ++ (if col_unique col then " UNIQUE" else "")
  ++ (if negb (col_nullable col) then " NOT NULL" else "")
  ++ (if withDefault (col_default col)
      then " DEFAULT " ++ toString (col_default col) else "").

(** Column definitions one per line, a comma after each but the last. *)
Fixpoint columnLines (withDefault : JSValue -> bool) (cols : list Column)
  : string :=
  match cols with
  | [] => ""
  | [col] => columnDefinition withDefault col ++ newline
  | col :: rest =>
      columnDefinition withDefault col ++ "," ++ newline
      ++ columnLines withDefault rest
  end.

Definition createTable (withDefault : JSValue -> bool) (t : Table) : string :=
  "-- Table: " ++ tbl_name t ++ newline
  ++ "CREATE TABLE " ++ tbl_name t ++ " (" ++ newline
  ++ columnLines withDefault (columnsOf t)
  ++ ");" ++ newline ++ newline.

Definition sqlHeader (now : string) : string :=
  "-- Database Schema Export" ++ newline
  ++ "-- Generated: " ++ now ++ newline ++ newline.

Definition sqlDocument (withDefault : JSValue -> bool) (now : string)
    (ts : list Table) : string :=
  sqlHeader now ++ String.concat "" (map (createTable withDefault) ts).

(** A column carries a default value when the field is neither absent nor
    [null]. *)
Definition hasDefault (v : JSValue) : bool :=
  match v with
  | JUndefined => false
  | JNull => false
  | _ => true
  end.

Local Open Scope list_scope.

(** ** Sample models *)

Definition usersTable : Table :=
  rawTable "users" [mkColumn "id" "INT" true false false JUndefined].

Definition ordersTable : Table :=
  rawTable "orders" [mkColumn "id" "INT" true false false JUndefined;
                     plainColumn "user_id" "INT"].

(** The same table under the singular name. *)
Definition userTable : Table :=
  rawTable "user" [mkColumn "id" "INT" true false false JUndefined].

(** A table that happens to be called [id]. *)
Definition idTable : Table :=
  rawTable "id" [mkColumn "id" "INT" true false false JUndefined].

(** A table whose only column has the default [false]. *)
Definition flagsTable : Table :=
  rawTable "flags" [mkColumn "active" "BOOLEAN" false false true (JBool false)].

(** A table with a column that points back at the table itself. *)
Definition nodeTable : Table :=
  rawTable "node" [mkColumn "id" "INT" true false false JUndefined;
                   plainColumn "node_id" "INT"].

(** A table with thirty columns [c0] ... [c29]. *)
Definition tallTable : Table :=
  rawTable "measurements"
    (map (fun k => plainColumn ("c" ++ NilZero.string_of_uint (Nat.to_uint k))
                               "FLOAT")
         (seq 0 30)).

(** A laid-out node of 280 by 225, the size of a one-column table. *)
Definition smallNode : Table :=
  mkTable "users" (Some [mkColumn "id" "INT" true false false JUndefined])
          (Some 100%R) (Some 100%R) (Some 280%R) (Some 225%R).

(** The thirty-column table once laid out: 280 by 950. *)
Definition tallNode : Table :=
  mkTable (tbl_name tallTable) (tbl_columns tallTable)
          (Some 100%R) (Some 100%R) (Some 280%R) (Some 950%R).

(** A 1200 by 800 canvas whose container sits at the viewport origin, the
    node grabbed at its top-left corner. *)
Definition plainDragEnv : DragEnv :=
  mkDragEnv 1200%R 800%R 0%R 0%R 0%R 0%R.

Definition initialState : State :=
  mkState [] [] false true 1200%R 800%R.

(** ** Summary statistics *)

(** [tables.value.reduce((sum, table) => f(sum, table.columns), 0)]: reading
    [table.columns] of a descriptor without columns throws, which is
    [None]. *)
Fixpoint reduceColumns (f : nat -> list Column -> nat) (ts : list Table)
    (sum : nat) : option nat :=
  match ts with
  | [] => Some sum
  | table :: rest =>
      match tbl_columns table with
      | None => None
      | Some cols => reduceColumns f rest (f sum cols)
      end
  end.

(** The computed [totalColumns]. *)
Definition totalColumns (st : State) : option nat :=
  reduceColumns (fun sum cols => sum + List.length cols) (tables st) 0.

(** The computed [primaryKeys]. *)
Definition primaryKeys (st : State) : option nat :=
  reduceColumns (fun sum cols => sum + List.length (filter col_primary cols))
                (tables st) 0.

(** ** Relationship queries *)

(** [isForeignKey] *)
Definition isForeignKey (st : State) (tableName columnName : string) : bool :=
  existsb (fun rel => (rel_to rel =? tableName)
                      && (rel_column rel =? columnName))
          (relationships st).

(** An entry of [getRelatedTables]. *)
Record Related : Type := mkRelated {
  related_table : string;
  related_type : string;
  related_columns : list string
}.

(** [getRelatedTables] *)
Definition getRelatedTables (st : State) (tableName : string) : list Related :=
  map (fun rel =>
         mkRelated
           (if rel_from rel =? tableName then rel_to rel else rel_from rel)
           (if rel_from rel =? tableName then "outgoing" else "incoming")
           [rel_column rel])
      (filter (fun rel => (rel_from rel =? tableName)
                          || (rel_to rel =? tableName))
              (relationships st)).

(** ** Table colours *)

Definition tableColors : list string :=
  ["#3b82f6"; "#10b981"; "#f59e0b"; "#ef4444"; "#8b5cf6";
   "#06b6d4"; "#84cc16"; "#f97316"; "#6366f1"; "#ec4899"].

(** [array.findIndex(p)], counting from [index]; [-1] when nothing
    matches. *)
Fixpoint findIndexFrom (p : Table -> bool) (index : Z) (ts : list Table) : Z :=
  match ts with
  | [] => (-1)%Z
  | t :: rest => if p t then index else findIndexFrom p (index + 1)%Z rest
  end.

(** [array[k]] for an integer [k]: [undefined] below zero and past the
    end. *)
Definition arrayGet {A : Type} (l : list A) (k : Z) : option A :=
  if (k <? 0)%Z then None else nth_error l (Z.to_nat k).

(** [tableColor]: the remainder [%] takes the sign of the dividend. *)
Definition tableColor (st : State) (table : Table) : option string :=
  let index :=
    findIndexFrom (fun t => tbl_name t =? tbl_name table) 0%Z (tables st) in
  arrayGet tableColors (Z.rem index (Z.of_nat (List.length tableColors))).

(** ** Interaction controller as a state machine *)

(** The component state together with the module-level variables of the
    drag: [dragTable] is the position in [tables] of the object being
    dragged, [onMouseMove] and [onMouseUp] tell whether [handleDrag] and
    [stopDrag] are registered on the document. The table list is not
    reloaded while this state is in use. *)
Record Interaction : Type := mkInteraction {
  ui : State;
  dragTable : option nat;
  dragOffset : R * R;
  onMouseMove : bool;
  onMouseUp : bool
}.

(** [list[i] = v] on an existing position. *)
Fixpoint updateAt {A : Type} (i : nat) (v : A) (l : list A) : list A :=
  match l, i with
  | [], _ => []
  | _ :: rest, O => v :: rest
  | a :: rest, S j => a :: updateAt j v rest
  end.

(** [startDrag(table, event)] for the table at position [index];
    [targetLeft] and [targetTop] are the corner of
    [event.target.getBoundingClientRect()]. Registering a listener that is
    already registered changes nothing. *)
Definition startDrag (s : Interaction) (index : nat) (event : MouseEvent)
    (targetLeft targetTop : R) : Interaction :=
  if autoLayout (ui s) then s
  else mkInteraction (ui s) (Some index)
         ((clientX event - targetLeft)%R, (clientY event - targetTop)%R)
         true true.

(** The environment [handleDrag] reads off the state. *)
Definition dragEnvOf (s : Interaction) (containerLeft containerTop : R)
  : DragEnv :=
  mkDragEnv (svgWidth (ui s)) (svgHeight (ui s)) containerLeft containerTop
            (fst (dragOffset s)) (snd (dragOffset s)).

(** [handleDrag(event)] on the state: the dragged object is updated in
    place. *)
Definition handleDragOn (s : Interaction) (event : MouseEvent)
    (containerLeft containerTop : R) : Interaction :=
  match dragTable s with
  | None => s
  | Some index =>
      match handleDrag (dragEnvOf s containerLeft containerTop) event
                       (nth_error (tables (ui s)) index) with
      | None => s
      | Some t' =>
          mkInteraction (setTables (ui s) (updateAt index t' (tables (ui s))))
                        (dragTable s) (dragOffset s)
                        (onMouseMove s) (onMouseUp s)
      end
  end.

(** [stopDrag] *)
Definition stopDrag (s : Interaction) : Interaction :=
  mkInteraction (ui s) None (dragOffset s) false false.

(** The pointer events the component reacts to. *)
Inductive PointerEvent : Type :=
| MouseDown (index : nat) (event : MouseEvent) (targetLeft targetTop : R)
| MouseMove (event : MouseEvent) (containerLeft containerTop : R)
| MouseUp.

(** Delivery of one event: [mousedown] reaches [startDrag] through the node
    rendered for an existing table, document events reach the handlers that
    are registered. *)
Definition dispatch (s : Interaction) (e : PointerEvent) : Interaction :=
  match e with
  | MouseDown index event targetLeft targetTop =>
      match nth_error (tables (ui s)) index with
      | Some _ => startDrag s index event targetLeft targetTop
      | None => s
      end
  | MouseMove event containerLeft containerTop =>
      if onMouseMove s then handleDragOn s event containerLeft containerTop
      else s
  | MouseUp => if onMouseUp s then stopDrag s else s
  end.

Definition runEvents (s : Interaction) (events : list PointerEvent)
  : Interaction :=
  fold_left dispatch events s.

(** The state right after mounting or after a completed drag. *)
Definition idle (s : Interaction) : Prop :=
  dragTable s = None /\ onMouseMove s = false /\ onMouseUp s = false.

(** The size of a table, apart from its position. *)
Definition sizeOf (t : Table) : num * num := (tbl_width t, tbl_height t).

(** The position of a table. *)
Definition positionOf (t : Table) : num * num := (tbl_x t, tbl_y t).

(** Two tables laid out by hand, and the component showing them in manual
    mode. *)
Definition placedUser : Table :=
  mkTable "user" (tbl_columns userTable)
          (Some 100%R) (Some 100%R) (Some 280%R) (Some 225%R).

Definition placedOrders : Table :=
  mkTable "orders" (tbl_columns ordersTable)
          (Some 450%R) (Some 100%R) (Some 280%R) (Some 250%R).

Definition manualState : State :=
  mkState [placedUser; placedOrders]
          [mkRel "user" "orders" "user_id" "foreign_key"]
          false false 1200%R 800%R.

Definition idleManual : Interaction :=
  mkInteraction manualState None (0%R, 0%R) false false.

(** * Properties *)

(** ** Strings *)

Lemma substring_prefix_app (p q : string) :
  substring 0 (String.length p) (p ++ q)%string = p.
Proof.
  induction p as [|c p IH]; simpl.
  - destruct q; reflexivity.
  - now rewrite IH.
Qed.

Lemma substring_whole (s : string) : substring 0 (String.length s) s = s.
Proof.
  induction s as [|c s IH]; simpl; [reflexivity | now rewrite IH].
Qed.

Lemma substring_suffix_app (p q : string) :
  substring (String.length p) (String.length q) (p ++ q)%string = q.
Proof.
  induction p as [|c p IH]; simpl.
  - apply substring_whole.
  - exact IH.
Qed.

Lemma length_app (p q : string) :
  String.length (p ++ q)%string = String.length p + String.length q.
Proof.
  induction p as [|c p IH]; simpl; [reflexivity | now rewrite IH].
Qed.

Lemma endsWith_app (p suffix : string) :
  endsWith (p ++ suffix)%string suffix = true.
Proof.
  unfold endsWith. rewrite length_app.
  replace (String.length p + String.length suffix - String.length suffix)
    with (String.length p) by lia.
  rewrite substring_suffix_app, String.eqb_refl, andb_true_r.
  apply Nat.leb_le. lia.
Qed.

Lemma substring_split (s : string) (n : nat) :
  n <= String.length s ->
  (substring 0 n s ++ substring n (String.length s - n) s)%string = s.
Proof.
  revert n. induction s as [|c s IH]; intros n Hn; simpl in *.
  - destruct n; reflexivity.
  - destruct n as [|n]; simpl.
    + now rewrite substring_whole.
    + rewrite IH by lia. reflexivity.
Qed.

(** A string ends with a suffix exactly when it is some prefix followed by
    the suffix. *)
Lemma endsWith_iff (s suffix : string) :
  endsWith s suffix = true <-> exists p, s = (p ++ suffix)%string.
Proof.
  split.
  - unfold endsWith. intros H. apply andb_true_iff in H as [Hlen Heq].
    apply Nat.leb_le in Hlen. apply String.eqb_eq in Heq.
    exists (substring 0 (String.length s - String.length suffix) s).
    pose proof (substring_split s (String.length s - String.length suffix))
      as Hsplit.
    replace (String.length s - (String.length s - String.length suffix))
      with (String.length suffix) in Hsplit by lia.
    rewrite Heq in Hsplit. symmetry. apply Hsplit. lia.
  - intros [p ->]. apply endsWith_app.
Qed.

Lemma replace_id_suffix_app (X : string) :
  replace_id_suffix (X ++ "_id")%string = X.
Proof.
  unfold replace_id_suffix. rewrite endsWith_app, length_app. simpl.
  replace (String.length X + 3 - 3) with (String.length X) by lia.
  apply substring_prefix_app.
Qed.

Lemma replace_id_suffix_other (s : string) :
  endsWith s "_id" = false -> replace_id_suffix s = s.
Proof. unfold replace_id_suffix. now intros ->. Qed.

(** ** Relationship inference *)

Lemma existsb_hasTable (ts : list Table) (n : string) :
  existsb (fun t => tbl_name t =? n) ts = true <-> hasTable ts n.
Proof.
  unfold hasTable. rewrite existsb_exists.
  split; intros [t [Hin H]]; exists t; split; auto;
    now apply String.eqb_eq.
Qed.

Lemma existsb_noTable (ts : list Table) (n : string) :
  existsb (fun t => tbl_name t =? n) ts = false <-> ~ hasTable ts n.
Proof.
  rewrite <- existsb_hasTable.
  destruct (existsb _ ts); split; intros H; congruence.
Qed.

(** Visiting a column only appends to what was collected before. *)
Lemma visitColumn_emitted ts table rels column :
  visitColumn ts table rels column = rels ++ emitted ts table column.
Proof.
  unfold emitted, visitColumn.
  destruct (endsWith _ _ || _); [|now rewrite app_nil_r].
  destruct (existsb _ ts); [reflexivity | now rewrite app_nil_r].
Qed.

Lemma fold_visitColumn ts table cols : forall rels,
  fold_left (visitColumn ts table) cols rels
  = rels ++ flat_map (emitted ts table) cols.
Proof.
  induction cols as [|c cols IH]; intros rels; simpl.
  - now rewrite app_nil_r.
  - now rewrite IH, visitColumn_emitted, app_assoc.
Qed.

Lemma visitTables_wellFormed ts : forall todo rels,
  Forall wellFormed todo ->
  visitTables ts todo rels
  = (rels ++ flat_map (fun t => flat_map (emitted ts t) (columnsOf t)) todo,
     Completed).
Proof.
  induction todo as [|t todo IH]; intros rels Hwf; simpl.
  - now rewrite app_nil_r.
  - inversion Hwf as [|? ? Ht Hrest]; subst.
    unfold wellFormed in Ht. unfold columnsOf.
    destruct (tbl_columns t) as [cols|]; [|congruence].
    now rewrite IH, fold_visitColumn, app_assoc.
Qed.

(** On a model whose tables all carry a column array the operation
    completes and stores exactly [inferRelationships]. *)
Lemma detectRelationships_wellFormed st :
  Forall wellFormed (tables st) ->
  detectRelationships st
  = (setRelationships st (inferRelationships (tables st)), Completed).
Proof.
  intros Hwf. unfold detectRelationships.
  now rewrite visitTables_wellFormed.
Qed.

Lemma emitted_suffix ts table column X :
  col_name column = (X ++ "_id")%string ->
  emitted ts table column
  = if existsb (fun t => tbl_name t =? X) ts
    then [mkRel X (tbl_name table) (col_name column) "foreign_key"]
    else [].
Proof.
  intros Hname. unfold emitted, visitColumn.
  rewrite Hname, endsWith_app, replace_id_suffix_app. simpl.
  destruct (existsb _ ts); reflexivity.
Qed.

Lemma emitted_id ts table column :
  col_name column = "id" ->
  emitted ts table column
  = if existsb (fun t => tbl_name t =? "id") ts
    then [mkRel "id" (tbl_name table) "id" "foreign_key"]
    else [].
Proof.
  intros Hname. unfold emitted, visitColumn. rewrite Hname. simpl.
  destruct (existsb _ ts); reflexivity.
Qed.

Lemma emitted_other ts table column :
  endsWith (col_name column) "_id" = false ->
  col_name column <> "id" ->
  emitted ts table column = [].
Proof.
  intros Hsuffix Hid. unfold emitted, visitColumn.
  apply String.eqb_neq in Hid. now rewrite Hsuffix, Hid.
Qed.

(** Inference reads names and column arrays only. *)
Lemma existsb_schemaOf n : forall ts ts',
  map schemaOf ts = map schemaOf ts' ->
  existsb (fun u => tbl_name u =? n) ts
  = existsb (fun u => tbl_name u =? n) ts'.
Proof.
  induction ts as [|a ts IH]; intros [|a' ts'] H; simpl in *;
    try discriminate; [reflexivity|].
  inversion H as [[Hn Hc Hrest]].
  now rewrite Hn, (IH ts').
Qed.

Lemma emitted_schemaOf ts ts' t t' c :
  map schemaOf ts = map schemaOf ts' ->
  tbl_name t = tbl_name t' ->
  emitted ts t c = emitted ts' t' c.
Proof.
  intros Hts Ht. unfold emitted, visitColumn.
  now rewrite Ht, (existsb_schemaOf _ ts ts').
Qed.

Lemma flat_map_schemaOf (e e' : Table -> Column -> list Relationship) :
  (forall t t' c, tbl_name t = tbl_name t' -> e t c = e' t' c) ->
  forall l l', map schemaOf l = map schemaOf l' ->
  flat_map (fun t => flat_map (e t) (columnsOf t)) l
  = flat_map (fun t => flat_map (e' t) (columnsOf t)) l'.
Proof.
  intros He. induction l as [|a l IH]; intros [|a' l'] H; simpl in *;
    try discriminate; [reflexivity|].
  inversion H as [[Hn Hc Hrest]].
  rewrite (IH l' Hrest). f_equal.
  unfold columnsOf. rewrite Hc.
  destruct (tbl_columns a') as [cols|]; [|reflexivity].
  clear - He Hn. induction cols as [|c cols IHc]; simpl; [reflexivity|].
  now rewrite IHc, (He a a' c Hn).
Qed.

Lemma inferRelationships_schemaOf ts ts' :
  map schemaOf ts = map schemaOf ts' ->
  inferRelationships ts = inferRelationships ts'.
Proof.
  intros H. unfold inferRelationships.
  apply flat_map_schemaOf; [|exact H].
  intros t t' c Hn. now apply emitted_schemaOf.
Qed.

Lemma wellFormed_schemaOf : forall ts ts',
  map schemaOf ts = map schemaOf ts' ->
  Forall wellFormed ts -> Forall wellFormed ts'.
Proof.
  induction ts as [|a ts IH]; intros [|a' ts'] H Hwf; simpl in *;
    try discriminate; constructor.
  - inversion H as [[Hn Hc Hrest]]. inversion Hwf; subst.
    unfold wellFormed in *. congruence.
  - inversion H as [[Hn Hc Hrest]]. inversion Hwf; subst. now apply IH.
Qed.

Lemma subsequence_app {A : Type} (a b c d : list A) :
  subsequence a b -> subsequence c d -> subsequence (a ++ c) (b ++ d).
Proof.
  intros Hab Hcd. induction Hab; simpl; auto using @subsequence.
Qed.

(** A column pushes nothing or one relationship that records the visited
    table and the column itself. *)
Lemma emitted_slot ts table column :
  subsequence (map originOf (emitted ts table column))
              [(tbl_name table, col_name column)].
Proof.
  unfold emitted, visitColumn.
  destruct (endsWith _ _ || _); simpl; [|apply sub_skip, sub_nil].
  destruct (existsb _ ts); simpl; [apply sub_take | apply sub_skip];
    apply sub_nil.
Qed.

Lemma inferRelationships_in_order (ts : list Table) :
  subsequence (map originOf (inferRelationships ts)) (columnSlots ts).
Proof.
  unfold inferRelationships, columnSlots.
  generalize ts at 1 as all. intros all.
  induction ts as [|t ts IH]; simpl; [constructor|].
  rewrite map_app. apply subsequence_app; [|exact IH].
  induction (columnsOf t) as [|c cols IHc]; simpl; [constructor|].
  rewrite map_app.
  apply (subsequence_app _ [(tbl_name t, col_name c)]); [|exact IHc].
  apply emitted_slot.
Qed.

(** ** Layout *)

Lemma assignGeometry_wellFormed t x y cols :
  tbl_columns t = Some cols ->
  assignGeometry t x y
  = (mkTable (tbl_name t) (Some cols) (Some x) (Some y) (Some 280%R)
             (Some (200 + INR (List.length cols) * 25)%R), Completed).
Proof. intros H. unfold assignGeometry. now rewrite H. Qed.

Lemma assignGeometry_schemaOf t x y :
  schemaOf (fst (assignGeometry t x y)) = schemaOf t.
Proof.
  unfold assignGeometry, schemaOf.
  destruct (tbl_columns t) eqn:E; simpl; now rewrite ?E.
Qed.

(** A [forEach] whose callback completes on every element completes, keeps
    the length, and leaves at each position what the callback made of the
    element there. *)
Lemma forEachFrom_completed callback : forall ts index,
  (forall k t, In t ts -> snd (callback k t) = Completed) ->
  exists ts',
    forEachFrom callback index ts = (ts', Completed)
    /\ List.length ts' = List.length ts
    /\ forall k t, nth_error ts k = Some t ->
         nth_error ts' k = Some (fst (callback (index + k) t)).
Proof.
  induction ts as [|a ts IH]; intros index Hc; simpl.
  - exists []. repeat split; auto. intros [|k] t H; discriminate.
  - pose proof (Hc index a (or_introl eq_refl)) as Ha.
    destruct (callback index a) as [a' o] eqn:Ea. simpl in Ha. subst o.
    destruct (IH (S index) (fun k t H => Hc k t (or_intror H)))
      as [ts' [E [Hlen Hnth]]].
    rewrite E. exists (a' :: ts'). repeat split; simpl; auto.
    intros [|k] t H; simpl in *.
    + injection H as <-. now rewrite Nat.add_0_r, Ea.
    + rewrite (Hnth k t H). now rewrite Nat.add_succ_r.
Qed.

(** Whatever happens, a layout [forEach] keeps names and column arrays. *)
Lemma forEachFrom_schemaOf callback :
  (forall k t, schemaOf (fst (callback k t)) = schemaOf t) ->
  forall ts index,
    map schemaOf (fst (forEachFrom callback index ts)) = map schemaOf ts.
Proof.
  intros Hc. induction ts as [|a ts IH]; intros index; simpl; [reflexivity|].
  specialize (Hc index a). destruct (callback index a) as [a' [|]];
    simpl in *.
  - specialize (IH (S index)).
    destruct (forEachFrom callback (S index) ts) as [rest o]. simpl in *.
    now rewrite Hc, IH.
  - now rewrite Hc.
Qed.

Lemma autoPlace_completes W H N k t :
  wellFormed t -> snd (autoPlace W H N k t) = Completed.
Proof.
  unfold wellFormed, autoPlace, assignGeometry.
  destruct (tbl_columns t); [reflexivity | congruence].
Qed.

Lemma gridPlace_completes k t :
  wellFormed t -> snd (gridPlace k t) = Completed.
Proof.
  unfold wellFormed, gridPlace, assignGeometry.
  destruct (tbl_columns t); [reflexivity | congruence].
Qed.

Lemma autoLayoutTables_schemaOf W H ts :
  map schemaOf (fst (autoLayoutTables W H ts)) = map schemaOf ts.
Proof.
  apply forEachFrom_schemaOf. intros k t. apply assignGeometry_schemaOf.
Qed.

Lemma gridLayoutTables_schemaOf ts :
  map schemaOf (fst (gridLayoutTables ts)) = map schemaOf ts.
Proof.
  apply forEachFrom_schemaOf. intros k t. apply assignGeometry_schemaOf.
Qed.

Lemma autoLayoutTables_completes W H ts :
  Forall wellFormed ts -> snd (autoLayoutTables W H ts) = Completed.
Proof.
  intros Hwf. unfold autoLayoutTables.
  destruct (forEachFrom_completed (autoPlace W H (List.length ts)) ts 0)
    as [ts' [E _]].
  - intros k t Hin. apply autoPlace_completes.
    now apply (proj1 (Forall_forall _ _) Hwf).
  - now rewrite E.
Qed.

Lemma gridLayoutTables_completes ts :
  Forall wellFormed ts -> snd (gridLayoutTables ts) = Completed.
Proof.
  intros Hwf. unfold gridLayoutTables.
  destruct (forEachFrom_completed gridPlace ts 0) as [ts' [E _]].
  - intros k t Hin. apply gridPlace_completes.
    now apply (proj1 (Forall_forall _ _) Hwf).
  - now rewrite E.
Qed.

Lemma circleAngle_eq (N i : nat) :
  (INR i * 2 * PI / INR N)%R = circleAngle N i.
Proof. unfold circleAngle, Rdiv. ring. Qed.

(** ** Loading *)

(** The layout step of [loadSchema] on a well-formed table list completes
    and keeps names and columns. *)
Lemma layoutStep_wellFormed st ts :
  Forall wellFormed ts ->
  exists ts',
    (if autoLayout st then applyAutoLayout (setTables st ts)
     else if negb (num_truthy (firstX ts)) then applyGridLayout (setTables st ts)
     else (setTables st ts, Completed))
    = (setTables st ts', Completed)
    /\ map schemaOf ts' = map schemaOf ts.
Proof.
  intros Hwf. destruct (autoLayout st) eqn:Eauto.
  - unfold applyAutoLayout. simpl.
    pose proof (autoLayoutTables_completes (svgWidth st) (svgHeight st) ts Hwf).
    pose proof (autoLayoutTables_schemaOf (svgWidth st) (svgHeight st) ts).
    destruct (autoLayoutTables _ _ ts) as [ts' o]. simpl in *. subst o.
    exists ts'. split; [reflexivity | assumption].
  - destruct (negb (num_truthy (firstX ts))).
    + unfold applyGridLayout. simpl.
      pose proof (gridLayoutTables_completes ts Hwf).
      pose proof (gridLayoutTables_schemaOf ts).
      destruct (gridLayoutTables ts) as [ts' o]. simpl in *. subst o.
      exists ts'. split; [reflexivity | assumption].
    + exists ts. split; reflexivity.
Qed.

(** A well-formed table list replaces the model wholesale: the tables are
    the received ones, laid out, and the relationships are inferred from
    exactly them. *)
Lemma loadSchema_wellFormed st ts :
  Forall wellFormed ts ->
  map schemaOf (tables (loadSchema st (TablesField ts))) = map schemaOf ts
  /\ relationships (loadSchema st (TablesField ts)) = inferRelationships ts
  /\ loading (loadSchema st (TablesField ts)) = false.
Proof.
  intros Hwf. unfold loadSchema, loadSchemaBody.
  destruct (layoutStep_wellFormed (setLoading st true) ts Hwf)
    as [ts' [E Hs]].
  change (autoLayout (setTables (setLoading st true) ts))
    with (autoLayout (setLoading st true)).
  change (tables (setTables (setLoading st true) ts)) with ts.
  rewrite E.
  rewrite detectRelationships_wellFormed
    by (simpl; apply (wellFormed_schemaOf ts ts'); auto).
  simpl. repeat split; auto.
  now apply inferRelationships_schemaOf.
Qed.

(** ** Claims on relationship inference *)

(** C1 (as amended). On a model whose tables all carry columns,
    [detectRelationships] stores the per-column emissions, concatenated in
    order. A column named [X_id] emits exactly one relationship
    [{from: X, to: T.name, column: X_id, type: foreign_key}] when a table
    named [X] exists and none otherwise. A column named [id] emits the
    relationship [{from: id, to: T.name, column: id}] when a table named
    [id] exists and none otherwise. Every other column emits nothing. *)
Theorem detectRelationships_per_column (st : State) :
  Forall wellFormed (tables st) ->
  detectRelationships st
  = (setRelationships st
       (flat_map (fun T => flat_map (emitted (tables st) T) (columnsOf T))
                 (tables st)),
     Completed)
  /\ forall (T : Table) (c : Column),
       (forall X, col_name c = (X ++ "_id")%string ->
          (hasTable (tables st) X ->
             emitted (tables st) T c
             = [mkRel X (tbl_name T) (col_name c) "foreign_key"])
          /\ (~ hasTable (tables st) X -> emitted (tables st) T c = []))
       /\ (col_name c = "id" ->
             (hasTable (tables st) "id" ->
                emitted (tables st) T c
                = [mkRel "id" (tbl_name T) "id" "foreign_key"])
             /\ (~ hasTable (tables st) "id" -> emitted (tables st) T c = []))
       /\ (endsWith (col_name c) "_id" = false -> col_name c <> "id" ->
             emitted (tables st) T c = []).
Proof.
  intros Hwf. split; [now apply detectRelationships_wellFormed|].
  intros T c. repeat split.
  - intros Hhas. rewrite (emitted_suffix _ _ _ X H).
    apply existsb_hasTable in Hhas. now rewrite Hhas.
  - intros Hno. rewrite (emitted_suffix _ _ _ X H).
    apply existsb_noTable in Hno. now rewrite Hno.
  - intros Hhas. rewrite (emitted_id _ _ _ H).
    apply existsb_hasTable in Hhas. now rewrite Hhas.
  - intros Hno. rewrite (emitted_id _ _ _ H).
    apply existsb_noTable in Hno. now rewrite Hno.
  - apply emitted_other.
Qed.

Lemma detectRelationships_per_column_witness :
  Forall wellFormed [userTable; ordersTable]
  /\ emitted [userTable; ordersTable] ordersTable (plainColumn "user_id" "INT")
     = [mkRel "user" "orders" "user_id" "foreign_key"]
  /\ emitted [userTable; ordersTable] ordersTable
       (mkColumn "id" "INT" true false false JUndefined) = [].
Proof.
  assert (Hwf : Forall wellFormed [userTable; ordersTable])
    by (repeat constructor; discriminate).
  pose proof (detectRelationships_per_column
                (setTables initialState [userTable; ordersTable]) Hwf)
    as [_ Hcol].
  split; [exact Hwf|]. split.
  - destruct (Hcol ordersTable (plainColumn "user_id" "INT")) as [Hx _].
    destruct (Hx "user" eq_refl) as [Hyes _]. apply Hyes.
    exists userTable. split; [left; reflexivity | reflexivity].
  - destruct (Hcol ordersTable
                (mkColumn "id" "INT" true false false JUndefined))
      as [_ [Hid _]].
    destruct (Hid eq_refl) as [_ Hno]. apply Hno.
    intros [t [[<-|[<-|[]]] Hn]]; discriminate.
Defined.

(** A model holding a table named [id]: its [id] column does produce a
    relationship, from the table [id] to itself. *)
Lemma id_column_counterexample :
  let st := setTables initialState [idTable] in
  exists T c,
    In T (tables st) /\ In c (columnsOf T) /\ col_name c = "id"
    /\ emitted (tables st) T c = [mkRel "id" "id" "id" "foreign_key"]
    /\ relationships (fst (detectRelationships st))
       = [mkRel "id" "id" "id" "foreign_key"].
Proof.
  exists idTable, (mkColumn "id" "INT" true false false JUndefined).
  repeat split; simpl; auto.
Qed.

(** C2 (as amended). Loading the two tables [users(id)] and
    [orders(id, user_id)], in either layout mode and from any prior state,
    leaves two tables and no relationship: the column [user_id] refers to a
    table named [user], and there is none. With the first table named
    [user] the same load leaves exactly one relationship,
    [{from: user, to: orders, column: user_id}]. *)
Theorem users_orders_scenario (st : State) :
  (relationships (loadSchema st (TablesField [usersTable; ordersTable])) = []
   /\ List.length (tables (loadSchema st (TablesField [usersTable; ordersTable])))
      = 2)
  /\ relationships (loadSchema st (TablesField [userTable; ordersTable]))
     = [mkRel "user" "orders" "user_id" "foreign_key"].
Proof.
  assert (Hwf : Forall wellFormed [usersTable; ordersTable])
    by (repeat constructor; discriminate).
  assert (Hwf' : Forall wellFormed [userTable; ordersTable])
    by (repeat constructor; discriminate).
  destruct (loadSchema_wellFormed st _ Hwf) as [Hs [Hr _]].
  destruct (loadSchema_wellFormed st _ Hwf') as [_ [Hr' _]].
  repeat split.
  - rewrite Hr; reflexivity.
  - apply (f_equal (@List.length _)) in Hs.
    now rewrite !length_map in Hs.
  - rewrite Hr'; reflexivity.
Qed.

(** The scenario as the specification words it: the load of [users] and
    [orders] does not leave the relationship from [users] to [orders]. *)
Lemma users_orders_counterexample :
  relationships (loadSchema initialState (TablesField [usersTable; ordersTable]))
  <> [mkRel "users" "orders" "user_id" "foreign_key"]
  /\ List.length
       (relationships
          (loadSchema initialState (TablesField [usersTable; ordersTable])))
     = 0.
Proof.
  assert (Hwf : Forall wellFormed [usersTable; ordersTable])
    by (repeat constructor; discriminate).
  destruct (loadSchema_wellFormed initialState _ Hwf) as [_ [Hr _]].
  rewrite Hr. split; [discriminate | reflexivity].
Qed.

(** C5. Relationship inference is a function of the tables alone: it leaves
    the tables untouched, two states with the same tables get the same
    relationship sequence whatever they held before, and running it again
    changes nothing. On a model whose tables all carry columns the sequence
    follows the tables in order and, within a table, its columns in order:
    the (table, column) origins of the relationships form a subsequence of
    the (table, column) pairs of the model, and the relationships of a
    prefix of the tables precede those of the rest. *)
Theorem detectRelationships_pure (st : State) :
  tables (fst (detectRelationships st)) = tables st
  /\ (forall st', tables st' = tables st ->
        relationships (fst (detectRelationships st'))
        = relationships (fst (detectRelationships st))
        /\ snd (detectRelationships st') = snd (detectRelationships st))
  /\ detectRelationships (fst (detectRelationships st)) = detectRelationships st
  /\ (Forall wellFormed (tables st) ->
        relationships (fst (detectRelationships st))
        = inferRelationships (tables st)
        /\ subsequence
             (map originOf (relationships (fst (detectRelationships st))))
             (columnSlots (tables st))
        /\ forall ts1 ts2, tables st = ts1 ++ ts2 ->
             inferRelationships (tables st)
             = flat_map (fun T => flat_map (emitted (tables st) T) (columnsOf T))
                        ts1
               ++ flat_map (fun T => flat_map (emitted (tables st) T) (columnsOf T))
                           ts2).
Proof.
  unfold detectRelationships.
  destruct (visitTables (tables st) (tables st) []) as [rels o] eqn:E.
  simpl. split; [reflexivity|]. split; [|split].
  - intros st' H. rewrite H, E. split; reflexivity.
  - rewrite E. reflexivity.
  - intros Hwf. rewrite visitTables_wellFormed in E by assumption.
    injection E as <- _. split; [reflexivity|].
    split; [apply inferRelationships_in_order|].
    intros ts1 ts2 Hsplit. unfold inferRelationships.
    generalize (fun T => flat_map (emitted (tables st) T) (columnsOf T)).
    intros f. rewrite Hsplit. apply flat_map_app.
Qed.

Lemma detectRelationships_pure_witness :
  let st := setTables initialState [usersTable; ordersTable] in
  relationships (fst (detectRelationships st))
  = inferRelationships [usersTable; ordersTable]
  /\ relationships (fst (detectRelationships
                           (setRelationships st
                              [mkRel "a" "b" "a_id" "foreign_key"])))
     = relationships (fst (detectRelationships st)).
Proof.
  intros st.
  destruct (detectRelationships_pure st) as [_ [Hsame [_ Hord]]].
  split.
  - apply Hord. repeat constructor; discriminate.
  - apply (Hsame (setRelationships st [mkRel "a" "b" "a_id" "foreign_key"])).
    reflexivity.
Defined.

(** C10. A table named [X] holding a column named [X_id] gets a relationship
    from itself to itself on that column. *)
Theorem self_reference_emitted (st : State) (T : Table) (cols : list Column)
    (c : Column) :
  Forall wellFormed (tables st) ->
  In T (tables st) ->
  tbl_columns T = Some cols ->
  In c cols ->
  col_name c = (tbl_name T ++ "_id")%string ->
  In (mkRel (tbl_name T) (tbl_name T) (tbl_name T ++ "_id")%string "foreign_key")
     (relationships (fst (detectRelationships st))).
Proof.
  intros Hwf HT Hcols Hc Hname.
  rewrite detectRelationships_wellFormed by assumption. simpl.
  unfold inferRelationships.
  apply in_flat_map. exists T. split; [assumption|].
  apply in_flat_map. exists c. split.
  - unfold columnsOf. now rewrite Hcols.
  - rewrite (emitted_suffix _ _ _ (tbl_name T) Hname).
    assert (Hex : existsb (fun t => tbl_name t =? tbl_name T) (tables st) = true)
      by (apply existsb_hasTable; exists T; auto).
    rewrite Hex, Hname. left; reflexivity.
Qed.

Lemma self_reference_emitted_witness :
  In (mkRel "node" "node" "node_id" "foreign_key")
     (relationships
        (fst (detectRelationships (setTables initialState [nodeTable])))).
Proof.
  apply (self_reference_emitted (setTables initialState [nodeTable]) nodeTable
           [mkColumn "id" "INT" true false false JUndefined;
            plainColumn "node_id" "INT"]
           (plainColumn "node_id" "INT")).
  - repeat constructor; discriminate.
  - left; reflexivity.
  - reflexivity.
  - right; left; reflexivity.
  - reflexivity.
Defined.

(** ** Claims on layout and dragging *)

(** What [applyAutoLayout] leaves at position [i], in the code's own
    terms. *)
Lemma applyAutoLayout_nth (st : State) (i : nat) (t : Table)
    (cols : list Column) :
  Forall wellFormed (tables st) ->
  nth_error (tables st) i = Some t ->
  tbl_columns t = Some cols ->
  snd (applyAutoLayout st) = Completed
  /\ nth_error (tables (fst (applyAutoLayout st))) i
     = Some (mkTable (tbl_name t) (Some cols)
               (Some (svgWidth st / 2
                      + Rmin (svgWidth st) (svgHeight st) / 3
                        * cos (INR i * 2 * PI / INR (List.length (tables st)))
                      - 140)%R)
               (Some (svgHeight st / 2
                      + Rmin (svgWidth st) (svgHeight st) / 3
                        * sin (INR i * 2 * PI / INR (List.length (tables st)))
                      - 100)%R)
               (Some 280%R)
               (Some (200 + INR (List.length cols) * 25)%R)).
Proof.
  intros Hwf Hnth Hcols. unfold applyAutoLayout, autoLayoutTables.
  destruct (forEachFrom_completed
              (autoPlace (svgWidth st) (svgHeight st) (List.length (tables st)))
              (tables st) 0) as [ts' [E [_ Hat]]].
  - intros k u Hin. apply autoPlace_completes.
    now apply (proj1 (Forall_forall _ _) Hwf).
  - rewrite E. simpl. split; [reflexivity|].
    rewrite (Hat i t Hnth). simpl. unfold autoPlace.
    now rewrite (assignGeometry_wellFormed _ _ _ cols Hcols).
Qed.

Lemma applyGridLayout_nth (st : State) (i : nat) (t : Table)
    (cols : list Column) :
  Forall wellFormed (tables st) ->
  nth_error (tables st) i = Some t ->
  tbl_columns t = Some cols ->
  snd (applyGridLayout st) = Completed
  /\ nth_error (tables (fst (applyGridLayout st))) i
     = Some (mkTable (tbl_name t) (Some cols)
               (Some (100 + INR (i mod 3) * 350)%R)
               (Some (100 + INR (i / 3) * 250)%R)
               (Some 280%R)
               (Some (200 + INR (List.length cols) * 25)%R)).
Proof.
  intros Hwf Hnth Hcols. unfold applyGridLayout, gridLayoutTables.
  destruct (forEachFrom_completed gridPlace (tables st) 0)
    as [ts' [E [_ Hat]]].
  - intros k u Hin. apply gridPlace_completes.
    now apply (proj1 (Forall_forall _ _) Hwf).
  - rewrite E. simpl. split; [reflexivity|].
    rewrite (Hat i t Hnth). simpl. unfold gridPlace.
    now rewrite (assignGeometry_wellFormed _ _ _ cols Hcols).
Qed.

(** C3 (as amended). In auto mode, on a canvas of width [W] and height [H],
    table [i] of [N >= 1] tables is placed at angle [2 pi i / N] on the
    circle of radius [min(W, H) / 3] around [(W / 2, H / 2)]: its left edge
    is half its width left of that point, its top edge is 100 above it
    whatever its height, and its size becomes 280 by [200 + 25 columnCount]. *)
Theorem applyAutoLayout_placement (st : State) (i : nat) (t : Table)
    (cols : list Column) :
  Forall wellFormed (tables st) ->
  nth_error (tables st) i = Some t ->
  tbl_columns t = Some cols ->
  let p := circlePoint (svgWidth st) (svgHeight st)
                       (List.length (tables st)) i in
  snd (applyAutoLayout st) = Completed
  /\ nth_error (tables (fst (applyAutoLayout st))) i
     = Some (mkTable (tbl_name t) (Some cols)
               (Some (fst p - nodeWidth / 2)%R)
               (Some (snd p - 100)%R)
               (Some nodeWidth)
               (Some (nodeHeight (List.length cols)))).
Proof.
  intros Hwf Hnth Hcols p.
  destruct (applyAutoLayout_nth st i t cols Hwf Hnth Hcols) as [Hdone Hat].
  split; [exact Hdone|]. rewrite Hat. subst p.
  unfold circlePoint, nodeWidth, nodeHeight. simpl fst. simpl snd.
  rewrite circleAngle_eq.
  do 2 f_equal; f_equal; lra.
Qed.

Lemma applyAutoLayout_placement_witness :
  let st := setTables initialState [userTable; ordersTable] in
  let p := circlePoint 1200 800 2 1 in
  snd (applyAutoLayout st) = Completed
  /\ nth_error (tables (fst (applyAutoLayout st))) 1
     = Some (mkTable "orders"
               (Some [mkColumn "id" "INT" true false false JUndefined;
                      plainColumn "user_id" "INT"])
               (Some (fst p - nodeWidth / 2)%R)
               (Some (snd p - 100)%R)
               (Some nodeWidth)
               (Some (nodeHeight 2))).
Proof.
  intros st p.
  apply (applyAutoLayout_placement st 1 ordersTable
           [mkColumn "id" "INT" true false false JUndefined;
            plainColumn "user_id" "INT"]).
  - repeat constructor; discriminate.
  - reflexivity.
  - reflexivity.
Defined.

Lemma angle_of_single_table : (INR 0 * 2 * PI / INR 1)%R = 0%R.
Proof. simpl. field. Qed.

Lemma circleAngle_of_single_table : circleAngle 1 0 = 0%R.
Proof. unfold circleAngle. simpl. field. Qed.

(** A single one-column table on the 1200 by 800 canvas: its height is 225,
    the circle point is at height 400, so subtracting half the height would
    give 287.5, while the layout stores 300. *)
Lemma auto_layout_height_counterexample :
  let st := setTables initialState [usersTable] in
  let p := circlePoint 1200 800 1 0 in
  exists t',
    nth_error (tables (fst (applyAutoLayout st))) 0 = Some t'
    /\ tbl_height t' = Some (nodeHeight 1)
    /\ tbl_y t' = Some 300%R
    /\ (snd p - nodeHeight 1 / 2 = 287.5)%R
    /\ tbl_y t' <> Some (snd p - nodeHeight 1 / 2)%R.
Proof.
  intros st p.
  destruct (applyAutoLayout_nth st 0 usersTable
              [mkColumn "id" "INT" true false false JUndefined])
    as [_ Hat]; [repeat constructor; discriminate | reflexivity | reflexivity |].
  assert (Hp : (snd p - nodeHeight 1 / 2 = 287.5)%R).
  { subst p. unfold circlePoint, nodeHeight.
    rewrite circleAngle_of_single_table, sin_0. simpl. lra. }
  assert (Hy : (svgHeight st / 2
                + Rmin (svgWidth st) (svgHeight st) / 3
                  * sin (INR 0 * 2 * PI / INR (List.length (tables st)))
                - 100 = 300)%R).
  { change (List.length (tables st)) with 1%nat.
    rewrite angle_of_single_table, sin_0. simpl svgHeight. lra. }
  rewrite Hy in Hat. rewrite Hp.
  eexists. split; [exact Hat|]. simpl. repeat split.
  - f_equal. unfold nodeHeight. simpl. lra.
  - intros H. injection H as H. lra.
Qed.

Lemma handleDrag_laidOut env event t w h :
  tbl_width t = Some w ->
  tbl_height t = Some h ->
  handleDrag env event (Some t)
  = Some (mkTable (tbl_name t) (tbl_columns t)
            (Some (Rmax 0 (Rmin (drag_svgWidth env - w)
                                (fst (dragTarget env event)))))
            (Some (Rmax 0 (Rmin (drag_svgHeight env - h)
                                (snd (dragTarget env event)))))
            (Some w) (Some h)).
Proof. intros Hw Hh. unfold handleDrag. now rewrite Hw, Hh. Qed.

Lemma clamp_lower (limit v : R) : (0 <= Rmax 0 (Rmin limit v))%R.
Proof. apply Rmax_l. Qed.

Lemma clamp_upper (limit v : R) :
  (0 <= limit)%R -> (Rmax 0 (Rmin limit v) <= limit)%R.
Proof. intros H. apply Rmax_lub; [exact H | apply Rmin_l]. Qed.

(** A node larger than the canvas is pinned at 0. *)
Lemma clamp_oversize (limit v : R) :
  (limit < 0)%R -> Rmax 0 (Rmin limit v) = 0%R.
Proof.
  intros H. apply Rmax_left.
  apply Rle_trans with limit; [apply Rmin_l | lra].
Qed.

Lemma dragSequence_snoc env events event d :
  dragSequence env (events ++ [event]) d
  = handleDrag env event (dragSequence env events d).
Proof. unfold dragSequence. now rewrite fold_left_app. Qed.

(** Dragging never changes the size of the dragged node. *)
Lemma dragSequence_size env w h : forall events t,
  tbl_width t = Some w ->
  tbl_height t = Some h ->
  exists t',
    dragSequence env events (Some t) = Some t'
    /\ tbl_width t' = Some w /\ tbl_height t' = Some h.
Proof.
  induction events as [|event events IH]; intros t Hw Hh.
  - exists t. auto.
  - change (dragSequence env (event :: events) (Some t))
      with (dragSequence env events (handleDrag env event (Some t))).
    rewrite (handleDrag_laidOut env event t w h Hw Hh).
    apply IH; reflexivity.
Qed.

(** C4 (as amended). After any drag, that is after the handler ran on one
    or more pointer moves, a node with a numeric size has [0 <= x] and
    [0 <= y], and [x <= canvasWidth - width] as soon as the node is not
    wider than the canvas, [y <= canvasHeight - height] as soon as it is not
    taller; a node that fits the canvas therefore stays within its bounds,
    wherever the pointer went. *)
Theorem drag_keeps_position_clamped (env : DragEnv)
    (events : list MouseEvent) (t : Table) (w h : R) :
  events <> [] ->
  tbl_width t = Some w ->
  tbl_height t = Some h ->
  exists t' x y,
    dragSequence env events (Some t) = Some t'
    /\ tbl_x t' = Some x /\ tbl_y t' = Some y
    /\ tbl_width t' = Some w /\ tbl_height t' = Some h
    /\ (0 <= x)%R /\ (0 <= y)%R
    /\ ((w <= drag_svgWidth env)%R -> (x <= drag_svgWidth env - w)%R)
    /\ ((h <= drag_svgHeight env)%R -> (y <= drag_svgHeight env - h)%R)
    /\ ((w <= drag_svgWidth env)%R -> (h <= drag_svgHeight env)%R ->
        withinCanvas (drag_svgWidth env) (drag_svgHeight env) t').
Proof.
  intros Hne Hw Hh.
  destruct (exists_last Hne) as [front [event ->]].
  rewrite dragSequence_snoc.
  destruct (dragSequence_size env w h front t Hw Hh) as [u [-> [Hw' Hh']]].
  rewrite (handleDrag_laidOut env event u w h Hw' Hh').
  do 3 eexists. split; [reflexivity|]. simpl.
  split; [reflexivity|]. split; [reflexivity|].
  split; [reflexivity|]. split; [reflexivity|].
  split; [apply clamp_lower|]. split; [apply clamp_lower|].
  split; [intros; apply clamp_upper; lra|].
  split; [intros; apply clamp_upper; lra|].
  intros Hfw Hfh. unfold withinCanvas. simpl.
  do 4 eexists. repeat split; try reflexivity;
    try apply clamp_lower; apply clamp_upper; lra.
Qed.

Lemma drag_keeps_position_clamped_witness :
  exists t',
    dragSequence plainDragEnv
      [mkMouseEvent 500 400; mkMouseEvent (-50) 900] (Some smallNode)
    = Some t'
    /\ withinCanvas 1200 800 t'.
Proof.
  destruct (drag_keeps_position_clamped plainDragEnv
              [mkMouseEvent 500 400; mkMouseEvent (-50) 900]
              smallNode 280 225)
    as [t' [x [y [Hrun [_ [_ [_ [_ [_ [_ [_ [_ Hin]]]]]]]]]]]].
  - discriminate.
  - reflexivity.
  - reflexivity.
  - exists t'. split; [exact Hrun|].
    apply Hin; simpl; lra.
Defined.

(** The thirty-column table, 950 high, on the 1200 by 800 canvas: auto
    placement puts it at height 300, the grid at height 100, a drag pins it
    at height 0, and none of these is at most [800 - 950]. *)
Lemma layout_bounds_counterexample :
  let st := setTables initialState [tallTable] in
  (exists t', nth_error (tables (fst (applyAutoLayout st))) 0 = Some t'
              /\ tbl_y t' = Some 300%R /\ tbl_height t' = Some 950%R
              /\ ~ withinCanvas 1200 800 t')
  /\ (exists t', nth_error (tables (fst (applyGridLayout st))) 0 = Some t'
                 /\ tbl_y t' = Some 100%R /\ tbl_height t' = Some 950%R
                 /\ ~ withinCanvas 1200 800 t')
  /\ (exists t', handleDrag plainDragEnv (mkMouseEvent 500 400) (Some tallNode)
                 = Some t'
                 /\ tbl_y t' = Some 0%R /\ tbl_height t' = Some 950%R
                 /\ ~ withinCanvas 1200 800 t').
Proof.
  intros st.
  assert (Hwf : Forall wellFormed (tables st))
    by (repeat constructor; discriminate).
  assert (Hcols : exists cols,
            tbl_columns tallTable = Some cols /\ List.length cols = 30%nat)
    by (eexists; split; reflexivity).
  destruct Hcols as [cols [Hcols Hlen]].
  assert (Hh : (200 + INR (List.length cols) * 25 = 950)%R)
    by (rewrite Hlen, INR_IZR_INZ; simpl Z.of_nat; lra).
  assert (Hout : forall name x y,
            (800 - 950 < y)%R ->
            ~ withinCanvas 1200 800
                (mkTable name (Some cols) (Some x) (Some y)
                         (Some 280%R) (Some 950%R))).
  { intros name x y Hy [x' [y' [w' [h' [_ [Ey [_ [Eh [_ By]]]]]]]]].
    simpl in Ey, Eh. injection Ey as <-. injection Eh as <-. lra. }
  split; [|split].
  - destruct (applyAutoLayout_nth st 0 tallTable cols Hwf eq_refl Hcols)
      as [_ Hat].
    change (List.length (tables st)) with 1%nat in Hat.
    rewrite angle_of_single_table, sin_0, Hh in Hat.
    replace (svgHeight st / 2 + Rmin (svgWidth st) (svgHeight st) / 3 * 0 - 100)%R
      with 300%R in Hat by (simpl svgHeight; lra).
    eexists. split; [exact Hat|]. simpl.
    split; [reflexivity|]. split; [reflexivity|]. apply Hout. lra.
  - destruct (applyGridLayout_nth st 0 tallTable cols Hwf eq_refl Hcols)
      as [_ Hat].
    rewrite Hh in Hat.
    replace (100 + INR (0 / 3) * 250)%R with 100%R in Hat by (simpl; lra).
    eexists. split; [exact Hat|]. simpl.
    split; [reflexivity|]. split; [reflexivity|]. apply Hout. lra.
  - rewrite (handleDrag_laidOut plainDragEnv _ tallNode 280 950 eq_refl eq_refl).
    eexists. split; [reflexivity|]. simpl.
    rewrite clamp_oversize by lra.
    split; [reflexivity|]. split; [reflexivity|].
    apply (Hout "measurements"). lra.
Qed.

(** C9. On a 1200 by 800 canvas, a 280 by 225 node whose pointer target is
    [(-50, 900)] ends at [(0, 575)]. *)
Theorem drag_clamp_scenario (env : DragEnv) (event : MouseEvent) (t : Table) :
  drag_svgWidth env = 1200%R ->
  drag_svgHeight env = 800%R ->
  tbl_width t = Some 280%R ->
  tbl_height t = Some 225%R ->
  dragTarget env event = ((-50)%R, 900%R) ->
  exists t',
    handleDrag env event (Some t) = Some t'
    /\ tbl_x t' = Some 0%R /\ tbl_y t' = Some 575%R
    /\ tbl_width t' = Some 280%R /\ tbl_height t' = Some 225%R.
Proof.
  intros HW HH Hw Hh Htarget.
  rewrite (handleDrag_laidOut env event t 280 225 Hw Hh).
  rewrite Htarget, HW, HH. simpl fst. simpl snd.
  eexists. split; [reflexivity|]. simpl.
  repeat split; f_equal.
  - rewrite Rmin_right by lra. rewrite Rmax_left by lra. reflexivity.
  - rewrite Rmin_left by lra. rewrite Rmax_right by lra. lra.
Qed.

Lemma drag_clamp_scenario_witness :
  exists t',
    handleDrag plainDragEnv (mkMouseEvent (-50) 900) (Some smallNode) = Some t'
    /\ tbl_x t' = Some 0%R /\ tbl_y t' = Some 575%R.
Proof.
  destruct (drag_clamp_scenario plainDragEnv (mkMouseEvent (-50) 900) smallNode)
    as [t' [Hrun [Hx [Hy _]]]].
  - reflexivity.
  - reflexivity.
  - reflexivity.
  - reflexivity.
  - unfold dragTarget. simpl. f_equal; lra.
  - exists t'. auto.
Defined.

(** ** Claims on loading *)

(** C6 (as amended). A load whose request fails leaves tables and
    relationships exactly as they were; a response without a table list
    empties both; a response with a well-formed table list replaces both,
    the tables by the received ones and the relationships by those inferred
    from them. In every case [loading] ends lowered. *)
Theorem loadSchema_outcomes (st : State) :
  (tables (loadSchema st RequestFailed) = tables st
   /\ relationships (loadSchema st RequestFailed) = relationships st)
  /\ (tables (loadSchema st TablesAbsent) = []
      /\ relationships (loadSchema st TablesAbsent) = [])
  /\ (forall ts, Forall wellFormed ts ->
        map schemaOf (tables (loadSchema st (TablesField ts)))
        = map schemaOf ts
        /\ relationships (loadSchema st (TablesField ts))
           = inferRelationships ts)
  /\ forall resp, loading (loadSchema st resp) = false.
Proof.
  split; [split; reflexivity|]. split; [|split].
  - unfold loadSchema, loadSchemaBody. simpl.
    destruct (autoLayout st); split; reflexivity.
  - intros ts Hwf.
    destruct (loadSchema_wellFormed st ts Hwf) as [Hs [Hr _]]. auto.
  - intros resp. reflexivity.
Qed.

Lemma loadSchema_outcomes_witness :
  map schemaOf
      (tables (loadSchema initialState (TablesField [userTable; ordersTable])))
  = map schemaOf [userTable; ordersTable]
  /\ relationships
       (loadSchema initialState (TablesField [userTable; ordersTable]))
     = inferRelationships [userTable; ordersTable].
Proof.
  destruct (loadSchema_outcomes initialState) as [_ [_ [Hload _]]].
  apply Hload. repeat constructor; discriminate.
Defined.

(** After a successful load of two tables, a reload whose request fails
    leaves both tables and their relationship in place, and a reload that
    receives a descriptor without columns leaves the new tables next to the
    relationship inferred from the old ones. *)
Lemma failed_reload_counterexample :
  let loaded :=
    loadSchema initialState (TablesField [userTable; ordersTable]) in
  let broken :=
    TablesField [rawTable "a" []; mkTable "b" None None None None None] in
  (map tbl_name (tables (loadSchema loaded RequestFailed)) = ["user"; "orders"]
   /\ tables (loadSchema loaded RequestFailed) <> []
   /\ relationships (loadSchema loaded RequestFailed)
      = [mkRel "user" "orders" "user_id" "foreign_key"])
  /\ (map tbl_name (tables (loadSchema loaded broken)) = ["a"; "b"]
      /\ relationships (loadSchema loaded broken)
         = [mkRel "user" "orders" "user_id" "foreign_key"]).
Proof.
  intros loaded broken.
  assert (Hwf : Forall wellFormed [userTable; ordersTable])
    by (repeat constructor; discriminate).
  destruct (loadSchema_wellFormed initialState _ Hwf) as [Hs [Hr _]].
  fold loaded in Hs, Hr.
  assert (Hnames : map tbl_name (tables loaded) = ["user"; "orders"]).
  { change ["user"; "orders"]
      with (map fst (map schemaOf [userTable; ordersTable])).
    rewrite <- Hs, map_map. reflexivity. }
  split; [split; [|split]|split].
  - exact Hnames.
  - intros Hnil.
    change (tables (loadSchema loaded RequestFailed)) with (tables loaded)
      in Hnil.
    rewrite Hnil in Hnames. discriminate.
  - change (relationships (loadSchema loaded RequestFailed))
      with (relationships loaded).
    rewrite Hr. reflexivity.
  - reflexivity.
  - reflexivity.
Qed.

(** ** Claims on the edge path *)

Lemma findTable_none (ts : list Table) (n : string) :
  findTable ts n = None <-> ~ hasTable ts n.
Proof.
  unfold findTable, hasTable. split.
  - intros Hnone [t [Hin Hn]].
    pose proof (find_none _ _ Hnone t Hin) as Hf. simpl in Hf.
    apply String.eqb_neq in Hf. contradiction.
  - intros Hno. destruct (find _ ts) as [t|] eqn:E; [|reflexivity].
    apply find_some in E as [Hin Hn]. apply String.eqb_eq in Hn.
    exfalso. apply Hno. now exists t.
Qed.

Lemma findTable_some (ts : list Table) (n : string) :
  hasTable ts n ->
  exists t, findTable ts n = Some t /\ In t ts /\ tbl_name t = n.
Proof.
  intros Hhas. destruct (findTable ts n) as [t|] eqn:E.
  - exists t. split; [reflexivity|]. unfold findTable in E.
    apply find_some in E as [Hin Hn]. apply String.eqb_eq in Hn. auto.
  - apply findTable_none in E. contradiction.
Qed.

Lemma calculateConnectionPath_found show ts r f t :
  findTable ts (rel_from r) = Some f ->
  findTable ts (rel_to r) = Some t ->
  calculateConnectionPath show ts r = renderCubic show (connector f t).
Proof.
  intros Hf Ht. unfold calculateConnectionPath. rewrite Hf, Ht. reflexivity.
Qed.

(** C7. The path of a relationship is empty when no table of the current
    state bears the name of one of its endpoints. Otherwise it is the text
    of a cubic curve between the tables found under the two names: it starts
    at the middle of the right edge of the source rectangle, ends at the
    middle of the left edge of the target rectangle, and both control points
    lie at the horizontal midpoint of the two, the first at the height of
    the start, the second at the height of the end. The function is total:
    no case throws. *)
Theorem calculateConnectionPath_spec (numberToString : num -> string)
    (ts : list Table) (r : Relationship) :
  (~ hasTable ts (rel_from r) \/ ~ hasTable ts (rel_to r) ->
     calculateConnectionPath numberToString ts r = "")
  /\ (hasTable ts (rel_from r) -> hasTable ts (rel_to r) ->
      exists f t,
        findTable ts (rel_from r) = Some f /\ In f ts
        /\ tbl_name f = rel_from r
        /\ findTable ts (rel_to r) = Some t /\ In t ts
        /\ tbl_name t = rel_to r
        /\ calculateConnectionPath numberToString ts r
           = renderCubic numberToString (connector f t)
        /\ calculateConnectionPath numberToString ts r <> ""
        /\ cub_start (connector f t)
           = (num_add (tbl_x f) (tbl_width f),
              num_add (tbl_y f) (num_div (tbl_height f) (Some 2%R)))
        /\ cub_end (connector f t)
           = (tbl_x t, num_add (tbl_y t) (num_div (tbl_height t) (Some 2%R)))
        /\ cub_control1 (connector f t)
           = (num_div (num_add (fst (cub_start (connector f t)))
                               (fst (cub_end (connector f t)))) (Some 2%R),
              snd (cub_start (connector f t)))
        /\ cub_control2 (connector f t)
           = (num_div (num_add (fst (cub_start (connector f t)))
                               (fst (cub_end (connector f t)))) (Some 2%R),
              snd (cub_end (connector f t)))).
Proof.
  split.
  - intros [Hno|Hno]; apply findTable_none in Hno;
      unfold calculateConnectionPath; rewrite Hno;
      [|destruct (findTable ts (rel_from r))]; reflexivity.
  - intros Hfrom Hto.
    destruct (findTable_some ts _ Hfrom) as [f [Ef [Hinf Hnf]]].
    destruct (findTable_some ts _ Hto) as [t [Et [Hint Hnt]]].
    exists f, t.
    rewrite (calculateConnectionPath_found _ ts r f t Ef Et).
    repeat split; auto. discriminate.
Qed.

Lemma calculateConnectionPath_spec_witness :
  let show := fun v : num => match v with Some _ => "n" | None => "NaN" end in
  let placedUser :=
    mkTable "user" (tbl_columns userTable)
            (Some 100%R) (Some 100%R) (Some 280%R) (Some 225%R) in
  let placedOrders :=
    mkTable "orders" (tbl_columns ordersTable)
            (Some 600%R) (Some 300%R) (Some 280%R) (Some 250%R) in
  calculateConnectionPath show [placedUser; placedOrders]
    (mkRel "user" "orders" "user_id" "foreign_key") <> ""
  /\ calculateConnectionPath show [placedUser]
       (mkRel "user" "orders" "user_id" "foreign_key") = "".
Proof.
  intros show placedUser placedOrders. split.
  - destruct (calculateConnectionPath_spec show [placedUser; placedOrders]
                (mkRel "user" "orders" "user_id" "foreign_key"))
      as [_ Hfound].
    destruct Hfound as [f [t [_ [_ [_ [_ [_ [_ [_ [Hne _]]]]]]]]]].
    + exists placedUser. split; [left; reflexivity | reflexivity].
    + exists placedOrders. split; [right; left; reflexivity | reflexivity].
    + exact Hne.
  - destruct (calculateConnectionPath_spec show [placedUser]
                (mkRel "user" "orders" "user_id" "foreign_key"))
      as [Hmissing _].
    apply Hmissing. right.
    intros [t [[<-|[]] Hn]]. discriminate.
Defined.

(** ** Claims on the SQL export *)

Lemma append_assoc (a b c : string) :
  ((a ++ b) ++ c)%string = (a ++ (b ++ c))%string.
Proof. induction a as [|x a IH]; simpl; [reflexivity | now rewrite IH]. Qed.

Lemma append_nil_r (a : string) : (a ++ "")%string = a.
Proof. induction a as [|x a IH]; simpl; [reflexivity | now rewrite IH]. Qed.

Lemma append_inj_l (p a b : string) :
  (p ++ a)%string = (p ++ b)%string -> a = b.
Proof.
  induction p as [|x p IH]; simpl; intros H; [exact H|].
  injection H as H. now apply IH.
Qed.

Lemma concat_cons (x : string) (xs : list string) :
  String.concat "" (x :: xs) = (x ++ String.concat "" xs)%string.
Proof. destruct xs; simpl; [now rewrite append_nil_r | reflexivity]. Qed.

(** One callback appends one column definition, a comma unless the column
    is the last one, and a line break. *)
Lemma appendColumn_definition count sql index col :
  appendColumn count sql index col
  = (sql ++ columnDefinition truthy col
         ++ (if (index <? count - 1)%nat then "," else "") ++ newline)%string.
Proof.
  unfold appendColumn, columnDefinition.
  destruct (col_primary col), (col_unique col), (col_nullable col),
    (truthy (col_default col)), (index <? count - 1)%nat;
    repeat (progress (rewrite ?append_assoc, ?append_nil_r; simpl));
    reflexivity.
Qed.

Lemma forEachColumn_lines count : forall cols index sql,
  count = index + List.length cols ->
  forEachColumn count index cols sql
  = (sql ++ columnLines truthy cols)%string.
Proof.
  induction cols as [|col rest IH]; intros index sql Hcount.
  - simpl. now rewrite append_nil_r.
  - simpl forEachColumn. rewrite appendColumn_definition.
    rewrite IH by (simpl in Hcount; lia).
    destruct rest as [|next rest].
    + assert (Hlast : (index <? count - 1)%nat = false)
        by (apply Nat.ltb_ge; simpl in Hcount; lia).
      rewrite Hlast. simpl. now rewrite append_nil_r, !append_assoc.
    + assert (Hmore : (index <? count - 1)%nat = true)
        by (apply Nat.ltb_lt; simpl in Hcount; lia).
      rewrite Hmore. cbn [columnLines]. now rewrite !append_assoc.
Qed.

Lemma forEachTable_document : forall ts sql,
  Forall wellFormed ts ->
  forEachTable ts sql
  = Some (sql ++ String.concat "" (map (createTable truthy) ts))%string.
Proof.
  induction ts as [|t ts IH]; intros sql Hwf.
  - simpl. now rewrite append_nil_r.
  - inversion Hwf as [|? ? Ht Hrest]; subst. unfold wellFormed in Ht.
    cbn [forEachTable map]. rewrite concat_cons.
    unfold createTable, columnsOf.
    destruct (tbl_columns t) as [cols|]; [|congruence].
    rewrite IH by assumption.
    rewrite forEachColumn_lines by reflexivity.
    now rewrite !append_assoc.
Qed.

(** On a model whose tables all carry columns the export is the header
    followed, per table in order, by a comment line and a [CREATE TABLE]
    statement with one column definition per line; a definition carries
    [DEFAULT] exactly when the default value is truthy. *)
Lemma exportAsSQL_document (now : string) (ts : list Table) :
  Forall wellFormed ts ->
  exportAsSQL now ts = Some (sqlDocument truthy now ts).
Proof.
  intros Hwf. unfold exportAsSQL, sqlDocument, sqlHeader.
  rewrite forEachTable_document by assumption.
  now rewrite !append_assoc.
Qed.

(** C8, at the input where the export departs from it. The column [active]
    of type [BOOLEAN] carries the default [false]; the exported definition
    is [active BOOLEAN] with no [DEFAULT] clause, whereas listing the
    default that applies gives [active BOOLEAN DEFAULT false]. *)
Theorem exportAsSQL_drops_falsy_default (now : string) :
  exportAsSQL now [flagsTable]
  = Some (sqlHeader now
          ++ "-- Table: flags" ++ newline
          ++ "CREATE TABLE flags (" ++ newline
          ++ "  active BOOLEAN" ++ newline
          ++ ");" ++ newline ++ newline)%string
  /\ sqlDocument hasDefault now [flagsTable]
     = (sqlHeader now
        ++ "-- Table: flags" ++ newline
        ++ "CREATE TABLE flags (" ++ newline
        ++ "  active BOOLEAN DEFAULT false" ++ newline
        ++ ");" ++ newline ++ newline)%string
  /\ exportAsSQL now [flagsTable] <> Some (sqlDocument hasDefault now [flagsTable]).
Proof.
  assert (Hwf : Forall wellFormed [flagsTable])
    by (repeat constructor; discriminate).
  rewrite (exportAsSQL_document now _ Hwf).
  split; [reflexivity|]. split; [reflexivity|].
  intros H. injection H as H. unfold sqlDocument in H.
  apply append_inj_l in H. discriminate.
Qed.

(** * Further properties of the component *)

(** ** What inference produces *)

(** What a column can push: one relationship towards the visited table,
    on that column, from an existing table whose name is the column name
    without [_id] (or [id] itself for a column named [id]). *)
Lemma emitted_sound ts table column r :
  In r (emitted ts table column) ->
  rel_to r = tbl_name table
  /\ rel_column r = col_name column
  /\ rel_type r = "foreign_key"
  /\ hasTable ts (rel_from r)
  /\ (col_name column = (rel_from r ++ "_id")%string
      \/ (col_name column = "id" /\ rel_from r = "id")).
Proof.
  unfold emitted, visitColumn.
  destruct (endsWith (col_name column) "_id") eqn:Esuffix; simpl.
  - apply endsWith_iff in Esuffix as [X HX].
    rewrite HX, replace_id_suffix_app.
    destruct (existsb _ ts) eqn:Eex; simpl; [|tauto].
    intros [<-|[]]. simpl. apply existsb_hasTable in Eex.
    split; [reflexivity|]. split; [reflexivity|]. split; [reflexivity|].
    split; [exact Eex | left; reflexivity].
  - destruct (col_name column =? "id") eqn:Eid; simpl; [|tauto].
    apply String.eqb_eq in Eid. rewrite Eid.
    change (replace_id_suffix "id") with "id".
    destruct (existsb _ ts) eqn:Eex; simpl; [|tauto].
    intros [<-|[]]. simpl. apply existsb_hasTable in Eex.
    split; [reflexivity|]. split; [reflexivity|]. split; [reflexivity|].
    split; [exact Eex | right; split; reflexivity].
Qed.

Lemma visitTables_sound ts : forall todo rels r,
  In r (fst (visitTables ts todo rels)) ->
  In r rels
  \/ exists T cols c,
       In T todo /\ tbl_columns T = Some cols /\ In c cols
       /\ In r (emitted ts T c).
Proof.
  induction todo as [|t todo IH]; intros rels r Hin; simpl in Hin.
  - now left.
  - destruct (tbl_columns t) as [cols|] eqn:Ecols; [|now left].
    apply IH in Hin as [Hin|[T [cs [c [HT [Hcs [Hc Hr]]]]]]].
    + rewrite fold_visitColumn in Hin. apply in_app_or in Hin as [Hin|Hin].
      * now left.
      * right. apply in_flat_map in Hin as [c [Hc Hr]].
        exists t, cols, c. simpl. auto.
    + right. exists T, cs, c. simpl. auto.
Qed.

Lemma detectRelationships_origin st r :
  In r (relationships (fst (detectRelationships st))) ->
  exists T cols c,
    In T (tables st) /\ tbl_columns T = Some cols /\ In c cols
    /\ In r (emitted (tables st) T c).
Proof.
  unfold detectRelationships.
  destruct (visitTables (tables st) (tables st) []) as [rels o] eqn:E.
  simpl. intros Hin.
  assert (Hin' : In r (fst (visitTables (tables st) (tables st) [])))
    by now rewrite E.
  apply visitTables_sound in Hin' as [[]|H]. exact H.
Qed.

(** X1. Whatever the model, and even when inference stops on a table
    without columns, every relationship it stored is of type [foreign_key],
    goes from a table of the model to a table of the model, and sits on a
    column of the target table that is named after the source table
    followed by [_id] (or is the column [id] with the source table [id]). *)
Theorem detectRelationships_endpoints_exist (st : State) (r : Relationship) :
  In r (relationships (fst (detectRelationships st))) ->
  rel_type r = "foreign_key"
  /\ hasTable (tables st) (rel_from r)
  /\ hasTable (tables st) (rel_to r)
  /\ exists T cols c,
       In T (tables st) /\ tbl_name T = rel_to r
       /\ tbl_columns T = Some cols /\ In c cols
       /\ col_name c = rel_column r
       /\ (rel_column r = (rel_from r ++ "_id")%string
           \/ (rel_column r = "id" /\ rel_from r = "id")).
Proof.
  intros Hin.
  apply detectRelationships_origin in Hin as [T [cols [c [HT [Hcols [Hc Hr]]]]]].
  apply emitted_sound in Hr as [Hto [Hcol [Hty [Hfrom Hname]]]].
  split; [exact Hty|]. split; [exact Hfrom|]. split.
  - exists T. auto.
  - exists T, cols, c. rewrite <- Hcol in Hname.
    split; [exact HT|]. split; [now symmetry|]. split; [exact Hcols|].
    split; [exact Hc|]. split; [now symmetry | exact Hname].
Qed.

Lemma detectRelationships_endpoints_exist_witness :
  hasTable [userTable; ordersTable] "user"
  /\ hasTable [userTable; ordersTable] "orders".
Proof.
  destruct (detectRelationships_endpoints_exist
              (setTables initialState [userTable; ordersTable])
              (mkRel "user" "orders" "user_id" "foreign_key"))
    as [_ [Hfrom [Hto _]]].
  - simpl. left. reflexivity.
  - split; [exact Hfrom | exact Hto].
Defined.

(** ** Statistics *)

Lemma reduceColumns_defined f : forall ts sum,
  Forall wellFormed ts ->
  reduceColumns f ts sum
  = Some (fold_left (fun acc t => f acc (columnsOf t)) ts sum).
Proof.
  induction ts as [|t ts IH]; intros sum Hwf; simpl; [reflexivity|].
  inversion Hwf as [|? ? Ht Hrest]; subst. unfold wellFormed in Ht.
  unfold columnsOf at 2.
  destruct (tbl_columns t); [now apply IH | congruence].
Qed.

Lemma reduceColumns_wellFormed f : forall ts sum n,
  reduceColumns f ts sum = Some n -> Forall wellFormed ts.
Proof.
  induction ts as [|t ts IH]; intros sum n H; simpl in H; constructor.
  - unfold wellFormed. destruct (tbl_columns t); congruence.
  - destruct (tbl_columns t); [eapply IH; eauto | discriminate].
Qed.

Lemma reduceColumns_undefined f ts sum :
  reduceColumns f ts sum = None <-> ~ Forall wellFormed ts.
Proof.
  split.
  - intros Hnone Hwf. rewrite reduceColumns_defined in Hnone by assumption.
    discriminate.
  - intros Hnot. destruct (reduceColumns f ts sum) eqn:E; [|reflexivity].
    exfalso. apply Hnot. eapply reduceColumns_wellFormed; eauto.
Qed.

Lemma fold_count_le (g h : Table -> nat) :
  (forall t, g t <= h t) ->
  forall ts a b, a <= b ->
    fold_left (fun acc t => acc + g t) ts a
    <= fold_left (fun acc t => acc + h t) ts b.
Proof.
  intros Hgh. induction ts as [|t ts IH]; intros a b Hab; simpl; [exact Hab|].
  apply IH. specialize (Hgh t). lia.
Qed.

Lemma fold_count_sum (g : Table -> nat) : forall ts a,
  fold_left (fun acc t => acc + g t) ts a = a + list_sum (map g ts).
Proof.
  induction ts as [|t ts IH]; intros a; simpl; [lia|].
  rewrite IH. lia.
Qed.

(** X2. The two statistics are defined for the same models: each one fails
    exactly when some table has no column array. When they are defined, the
    number of primary keys is at most the number of columns. *)
Theorem primaryKeys_le_totalColumns (st : State) :
  (totalColumns st = None <-> ~ Forall wellFormed (tables st))
  /\ (primaryKeys st = None <-> ~ Forall wellFormed (tables st))
  /\ forall p n, primaryKeys st = Some p -> totalColumns st = Some n -> p <= n.
Proof.
  unfold totalColumns, primaryKeys.
  split; [apply reduceColumns_undefined|].
  split; [apply reduceColumns_undefined|].
  intros p n Hp Hn.
  pose proof (reduceColumns_wellFormed _ _ _ _ Hn) as Hwf.
  rewrite reduceColumns_defined in Hp, Hn by assumption.
  injection Hp as <-. injection Hn as <-.
  apply (fold_count_le
           (fun t => List.length (filter col_primary (columnsOf t)))
           (fun t => List.length (columnsOf t))); [|lia].
  intros t. apply filter_length_le.
Qed.

Lemma primaryKeys_le_totalColumns_witness :
  primaryKeys (setTables initialState [userTable; ordersTable]) = Some 2
  /\ totalColumns (setTables initialState [userTable; ordersTable]) = Some 3
  /\ 2 <= 3.
Proof.
  split; [reflexivity|]. split; [reflexivity|].
  destruct (primaryKeys_le_totalColumns
              (setTables initialState [userTable; ordersTable]))
    as [_ [_ Hle]].
  apply Hle; reflexivity.
Defined.

Lemma emitted_length ts table column :
  List.length (emitted ts table column) <= 1.
Proof.
  unfold emitted, visitColumn.
  destruct (endsWith _ _ || _); simpl; [|lia].
  destruct (existsb _ ts); simpl; lia.
Qed.

Lemma flat_map_emitted_length ts table cols :
  List.length (flat_map (emitted ts table) cols) <= List.length cols.
Proof.
  induction cols as [|c cols IH]; simpl; [lia|].
  rewrite List.length_app. pose proof (emitted_length ts table c). lia.
Qed.

Lemma inferRelationships_length_from ts : forall todo,
  List.length
    (flat_map (fun t => flat_map (emitted ts t) (columnsOf t)) todo)
  <= list_sum (map (fun t => List.length (columnsOf t)) todo).
Proof.
  induction todo as [|t todo IH]; simpl; [lia|].
  rewrite List.length_app.
  pose proof (flat_map_emitted_length ts t (columnsOf t)). lia.
Qed.

(** X3. When the column count is defined, inference completes and stores
    at most that many relationships: a column contributes at most one. *)
Theorem relationships_le_totalColumns (st : State) (n : nat) :
  totalColumns st = Some n ->
  snd (detectRelationships st) = Completed
  /\ List.length (relationships (fst (detectRelationships st))) <= n.
Proof.
  unfold totalColumns. intros Hn.
  pose proof (reduceColumns_wellFormed _ _ _ _ Hn) as Hwf.
  rewrite reduceColumns_defined in Hn by assumption. injection Hn as <-.
  rewrite detectRelationships_wellFormed by assumption. simpl.
  split; [reflexivity|].
  rewrite (fold_count_sum (fun t => List.length (columnsOf t))). simpl.
  apply inferRelationships_length_from.
Qed.

Lemma relationships_le_totalColumns_witness :
  List.length
    (relationships
       (fst (detectRelationships
               (setTables initialState [userTable; ordersTable]))))
  <= 3.
Proof.
  apply (relationships_le_totalColumns
           (setTables initialState [userTable; ordersTable]) 3).
  reflexivity.
Defined.

(** ** Relationship queries *)

Lemma emitted_in_inferRelationships ts T cols c r :
  In T ts -> tbl_columns T = Some cols -> In c cols ->
  In r (emitted ts T c) -> In r (inferRelationships ts).
Proof.
  intros HT Hcols Hc Hr. unfold inferRelationships.
  apply in_flat_map. exists T. split; [exact HT|].
  apply in_flat_map. exists c. split; [|exact Hr].
  unfold columnsOf. now rewrite Hcols.
Qed.

(** X4. After inference on a model whose tables all carry columns, a column
    is flagged as a foreign key exactly when some table of that name holds a
    column of that name which is either [X_id] for an existing table [X],
    or [id] while a table named [id] exists. *)
Theorem isForeignKey_after_detect (st : State) (tableName columnName : string) :
  Forall wellFormed (tables st) ->
  isForeignKey (fst (detectRelationships st)) tableName columnName = true
  <-> exists T cols c,
        In T (tables st) /\ tbl_columns T = Some cols /\ In c cols
        /\ tbl_name T = tableName /\ col_name c = columnName
        /\ ((exists X, columnName = (X ++ "_id")%string
                       /\ hasTable (tables st) X)
            \/ (columnName = "id" /\ hasTable (tables st) "id")).
Proof.
  intros Hwf. unfold isForeignKey. rewrite existsb_exists. split.
  - intros [r [Hin Hmatch]].
    apply andb_true_iff in Hmatch as [Hto Hcol].
    apply String.eqb_eq in Hto. apply String.eqb_eq in Hcol.
    apply detectRelationships_origin in Hin
      as [T [cols [c [HT [Hcols [Hc Hr]]]]]].
    apply emitted_sound in Hr as [Hto' [Hcol' [_ [Hfrom Hname]]]].
    exists T, cols, c.
    split; [exact HT|]. split; [exact Hcols|]. split; [exact Hc|].
    split; [congruence|]. split; [congruence|].
    destruct Hname as [Hname|[Hname Hid]].
    + left. exists (rel_from r). split; [congruence | exact Hfrom].
    + right. rewrite Hid in Hfrom. split; [congruence | exact Hfrom].
  - intros [T [cols [c [HT [Hcols [Hc [Hn [Hcn Hkind]]]]]]]].
    rewrite detectRelationships_wellFormed by assumption. simpl.
    destruct Hkind as [[X [HX Hhas]]|[Hid Hhas]].
    + exists (mkRel X (tbl_name T) (col_name c) "foreign_key"). split.
      * apply (emitted_in_inferRelationships _ T cols c); auto.
        rewrite (emitted_suffix _ _ _ X) by congruence.
        apply existsb_hasTable in Hhas. rewrite Hhas. now left.
      * simpl. rewrite Hn, Hcn, !String.eqb_refl. reflexivity.
    + exists (mkRel "id" (tbl_name T) "id" "foreign_key"). split.
      * apply (emitted_in_inferRelationships _ T cols c); auto.
        rewrite emitted_id by congruence.
        apply existsb_hasTable in Hhas. rewrite Hhas. now left.
      * simpl. rewrite Hn, Hid, !String.eqb_refl. reflexivity.
Qed.

Lemma isForeignKey_after_detect_witness :
  isForeignKey
    (fst (detectRelationships (setTables initialState [userTable; ordersTable])))
    "orders" "user_id" = true.
Proof.
  apply (isForeignKey_after_detect
           (setTables initialState [userTable; ordersTable])).
  - repeat constructor; discriminate.
  - exists ordersTable,
      [mkColumn "id" "INT" true false false JUndefined;
       plainColumn "user_id" "INT"],
      (plainColumn "user_id" "INT").
    split; [right; left; reflexivity|]. split; [reflexivity|].
    split; [right; left; reflexivity|]. split; [reflexivity|].
    split; [reflexivity|].
    left. exists "user". split; [reflexivity|].
    exists userTable. split; [left; reflexivity | reflexivity].
Defined.

(** X5. After inference, the related-tables list of a name is empty unless
    a table bears that name; every entry names a table of the model and
    carries exactly one column; an entry is [outgoing] when the relationship
    starts at the queried table (a self-reference included) and [incoming],
    with a different table on the other side, when it only ends there. *)
Theorem getRelatedTables_entries (st : State) (tableName : string)
    (e : Related) :
  In e (getRelatedTables (fst (detectRelationships st)) tableName) ->
  hasTable (tables st) tableName
  /\ hasTable (tables st) (related_table e)
  /\ exists column,
       related_columns e = [column]
       /\ ((related_type e = "outgoing"
            /\ In (mkRel tableName (related_table e) column "foreign_key")
                  (relationships (fst (detectRelationships st))))
           \/ (related_type e = "incoming"
               /\ related_table e <> tableName
               /\ In (mkRel (related_table e) tableName column "foreign_key")
                     (relationships (fst (detectRelationships st))))).
Proof.
  unfold getRelatedTables. intros Hin.
  apply in_map_iff in Hin as [r [<- Hr]].
  apply filter_In in Hr as [Hr Htouch].
  pose proof Hr as Horigin.
  apply detectRelationships_origin in Horigin
    as [T [cols [c [HT [Hcols [Hc Hem]]]]]].
  apply emitted_sound in Hem as [Hto [_ [Hty [Hfrom _]]]].
  assert (Hto' : hasTable (tables st) (rel_to r)) by (exists T; auto).
  assert (Hshape : r = mkRel (rel_from r) (rel_to r) (rel_column r)
                             "foreign_key")
    by (destruct r; simpl in *; congruence).
  simpl. destruct (rel_from r =? tableName) eqn:Efrom.
  - apply String.eqb_eq in Efrom.
    split; [now rewrite <- Efrom|]. split; [exact Hto'|].
    exists (rel_column r). split; [reflexivity|]. left.
    split; [reflexivity|]. now rewrite <- Efrom, <- Hshape.
  - simpl in Htouch. apply String.eqb_eq in Htouch.
    apply String.eqb_neq in Efrom.
    split; [now rewrite <- Htouch|]. split; [exact Hfrom|].
    exists (rel_column r). split; [reflexivity|]. right.
    split; [reflexivity|]. split; [exact Efrom|].
    now rewrite <- Htouch, <- Hshape.
Qed.

Lemma getRelatedTables_entries_witness :
  hasTable [userTable; ordersTable] "orders"
  /\ hasTable [userTable; ordersTable] "user".
Proof.
  destruct (getRelatedTables_entries
              (setTables initialState [userTable; ordersTable]) "orders"
              (mkRelated "user" "incoming" ["user_id"]))
    as [Hself [Hother _]].
  - simpl. left. reflexivity.
  - split; [exact Hself | exact Hother].
Defined.

(** ** Table colours *)

Lemma findIndexFrom_found p : forall ts i0,
  (exists t, In t ts /\ p t = true) ->
  exists k t,
    findIndexFrom p i0 ts = (i0 + Z.of_nat k)%Z
    /\ nth_error ts k = Some t /\ p t = true
    /\ forall j u, j < k -> nth_error ts j = Some u -> p u = false.
Proof.
  induction ts as [|a ts IH]; intros i0 [t [Hin Hp]]; [destruct Hin|].
  simpl. destruct (p a) eqn:Ea.
  - exists 0, a. rewrite Z.add_0_r.
    split; [reflexivity|]. split; [reflexivity|]. split; [exact Ea|].
    intros j u Hj. lia.
  - destruct Hin as [->|Hin]; [congruence|].
    destruct (IH (i0 + 1)%Z (ex_intro _ t (conj Hin Hp)))
      as [k [u [Hidx [Hnth [Hpu Hfirst]]]]].
    exists (S k), u.
    split; [rewrite Hidx; lia|]. split; [exact Hnth|]. split; [exact Hpu|].
    intros [|j] v Hj Hv; simpl in Hv.
    + now injection Hv as <-.
    + apply (Hfirst j); [lia | exact Hv].
Qed.

Lemma findIndexFrom_absent p : forall ts i0,
  (forall t, In t ts -> p t = false) ->
  findIndexFrom p i0 ts = (-1)%Z.
Proof.
  induction ts as [|a ts IH]; intros i0 Hno; simpl; [reflexivity|].
  rewrite (Hno a (or_introl eq_refl)). apply IH.
  intros t Hin. apply Hno. now right.
Qed.

Lemma palette_index (k : nat) :
  arrayGet tableColors (Z.rem (Z.of_nat k) (Z.of_nat (List.length tableColors)))
  = nth_error tableColors (k mod 10).
Proof.
  change (Z.of_nat (List.length tableColors)) with 10%Z.
  rewrite Z.rem_mod_nonneg by lia.
  unfold arrayGet.
  assert (Hrange : (0 <= Z.of_nat k mod 10 < 10)%Z)
    by (apply Z.mod_pos_bound; lia).
  destruct (Z.ltb_spec (Z.of_nat k mod 10) 0); [lia|].
  f_equal. change 10%Z with (Z.of_nat 10).
  rewrite <- Nat2Z.inj_mod. apply Nat2Z.id.
Qed.

(** X6. A table whose name occurs in the model always gets a colour, and
    that colour is one of the ten of the palette; a table whose name does
    not occur gets none ([findIndex] yields [-1], whose remainder is [-1]). *)
Theorem tableColor_defined (st : State) (table : Table) :
  (hasTable (tables st) (tbl_name table) ->
     exists c, tableColor st table = Some c /\ In c tableColors)
  /\ (~ hasTable (tables st) (tbl_name table) -> tableColor st table = None).
Proof.
  unfold tableColor. split.
  - intros [t [Hin Hn]].
    destruct (findIndexFrom_found (fun u => tbl_name u =? tbl_name table)
                (tables st) 0%Z) as [k [u [Hidx _]]].
    { exists t. split; [exact Hin|]. now apply String.eqb_eq. }
    rewrite Hidx, Z.add_0_l, palette_index.
    destruct (nth_error tableColors (k mod 10)) as [c|] eqn:Ec.
    + exists c. split; [reflexivity|]. eapply nth_error_In; eauto.
    + apply nth_error_None in Ec.
      change (List.length tableColors) with 10 in Ec.
      assert (k mod 10 < 10) by (apply Nat.mod_upper_bound; lia). lia.
  - intros Hno. rewrite findIndexFrom_absent; [reflexivity|].
    intros t Hin. apply String.eqb_neq. intros Hn. apply Hno. now exists t.
Qed.

Lemma tableColor_defined_witness :
  exists c, tableColor (setTables initialState [userTable; ordersTable])
                       ordersTable = Some c
            /\ In c tableColors.
Proof.
  destruct (tableColor_defined
              (setTables initialState [userTable; ordersTable]) ordersTable)
    as [Hin _].
  apply Hin. exists ordersTable.
  split; [right; left; reflexivity | reflexivity].
Defined.

(** X7. When table names are unique, the table at position [i] gets the
    palette colour at position [i mod 10], so colours repeat every ten
    tables. *)
Theorem tableColor_cycles (st : State) (i : nat) (table : Table) :
  NoDup (map tbl_name (tables st)) ->
  nth_error (tables st) i = Some table ->
  tableColor st table = nth_error tableColors (i mod 10).
Proof.
  intros Hnodup Hnth. unfold tableColor.
  destruct (findIndexFrom_found (fun u => tbl_name u =? tbl_name table)
              (tables st) 0%Z) as [k [u [Hidx [Hk [Hpu _]]]]].
  { exists table. split; [eapply nth_error_In; eauto|].
    apply String.eqb_refl. }
  apply String.eqb_eq in Hpu.
  assert (Hki : k = i).
  { apply (proj1 (NoDup_nth_error (map tbl_name (tables st))) Hnodup).
    - rewrite length_map. apply nth_error_Some. congruence.
    - rewrite !nth_error_map, Hk, Hnth. simpl. now rewrite Hpu. }
  subst k. rewrite Hidx, Z.add_0_l. apply palette_index.
Qed.

Lemma tableColor_cycles_witness :
  tableColor (setTables initialState [userTable; ordersTable]) ordersTable
  = Some "#10b981".
Proof.
  apply (tableColor_cycles
           (setTables initialState [userTable; ordersTable]) 1 ordersTable).
  - repeat constructor; simpl; intuition discriminate.
  - reflexivity.
Defined.

(** ** Layout geometry *)

Lemma layout_length_schemaOf (ts ts' : list Table) :
  map schemaOf ts' = map schemaOf ts -> List.length ts' = List.length ts.
Proof.
  intros H. apply (f_equal (@List.length _)) in H.
  now rewrite !length_map in H.
Qed.

Lemma wellFormed_columns (ts : list Table) (i : nat) (t : Table) :
  Forall wellFormed ts -> nth_error ts i = Some t ->
  exists cols, tbl_columns t = Some cols.
Proof.
  intros Hwf Hnth.
  pose proof (proj1 (Forall_forall _ _) Hwf t (nth_error_In _ _ Hnth)) as Ht.
  unfold wellFormed in Ht. destruct (tbl_columns t) as [cols|]; [|congruence].
  now exists cols.
Qed.

(** What the grid leaves at a position, read from the result. *)
Lemma applyGridLayout_at (st : State) (i : nat) (a : Table) :
  Forall wellFormed (tables st) ->
  nth_error (tables (fst (applyGridLayout st))) i = Some a ->
  exists t cols,
    nth_error (tables st) i = Some t /\ tbl_columns t = Some cols
    /\ a = mkTable (tbl_name t) (Some cols)
             (Some (100 + INR (i mod 3) * 350)%R)
             (Some (100 + INR (i / 3) * 250)%R)
             (Some 280%R)
             (Some (200 + INR (List.length cols) * 25)%R).
Proof.
  intros Hwf Ha.
  destruct (nth_error (tables st) i) as [t|] eqn:Et.
  - destruct (wellFormed_columns _ _ _ Hwf Et) as [cols Hcols].
    destruct (applyGridLayout_nth st i t cols Hwf Et Hcols) as [_ Hat].
    exists t, cols. rewrite Hat in Ha. injection Ha as <-. auto.
  - apply nth_error_None in Et.
    assert (Hlen : List.length (tables (fst (applyGridLayout st)))
                   = List.length (tables st)).
    { unfold applyGridLayout.
      pose proof (gridLayoutTables_schemaOf (tables st)) as Hs.
      destruct (gridLayoutTables (tables st)) as [ts' o]. simpl in *.
      now apply layout_length_schemaOf. }
    assert (Hsome : nth_error (tables (fst (applyGridLayout st))) i <> None)
      by congruence.
    apply nth_error_Some in Hsome. lia.
Qed.

(** What auto placement leaves at a position, read from the result. *)
Lemma applyAutoLayout_at (st : State) (i : nat) (a : Table) :
  Forall wellFormed (tables st) ->
  nth_error (tables (fst (applyAutoLayout st))) i = Some a ->
  exists t cols,
    nth_error (tables st) i = Some t /\ tbl_columns t = Some cols
    /\ a = mkTable (tbl_name t) (Some cols)
             (Some (svgWidth st / 2
                    + Rmin (svgWidth st) (svgHeight st) / 3
                      * cos (INR i * 2 * PI / INR (List.length (tables st)))
                    - 140)%R)
             (Some (svgHeight st / 2
                    + Rmin (svgWidth st) (svgHeight st) / 3
                      * sin (INR i * 2 * PI / INR (List.length (tables st)))
                    - 100)%R)
             (Some 280%R)
             (Some (200 + INR (List.length cols) * 25)%R).
Proof.
  intros Hwf Ha.
  destruct (nth_error (tables st) i) as [t|] eqn:Et.
  - destruct (wellFormed_columns _ _ _ Hwf Et) as [cols Hcols].
    destruct (applyAutoLayout_nth st i t cols Hwf Et Hcols) as [_ Hat].
    exists t, cols. rewrite Hat in Ha. injection Ha as <-. auto.
  - apply nth_error_None in Et.
    assert (Hlen : List.length (tables (fst (applyAutoLayout st)))
                   = List.length (tables st)).
    { unfold applyAutoLayout.
      pose proof (autoLayoutTables_schemaOf (svgWidth st) (svgHeight st)
                    (tables st)) as Hs.
      destruct (autoLayoutTables _ _ (tables st)) as [ts' o]. simpl in *.
      now apply layout_length_schemaOf. }
    assert (Hsome : nth_error (tables (fst (applyAutoLayout st))) i <> None)
      by congruence.
    apply nth_error_Some in Hsome. lia.
Qed.

Lemma INR_apart (a b : nat) : a <> b -> (1 <= Rabs (INR a - INR b))%R.
Proof.
  intros Hab.
  destruct (Nat.lt_gt_cases a b) as [Hcases _].
  destruct (Hcases Hab) as [Hlt|Hlt].
  - apply le_INR in Hlt. rewrite S_INR in Hlt.
    rewrite Rabs_left1 by lra. lra.
  - apply le_INR in Hlt. rewrite S_INR in Hlt.
    rewrite Rabs_right by lra. lra.
Qed.

(** X8. The default grid never puts two tables at the same position, and
    two tables of the same row are at least 350 apart horizontally, more
    than the node width of 280, so they do not overlap. *)
Theorem grid_positions_distinct (st : State) (i j : nat) (a b : Table) :
  Forall wellFormed (tables st) ->
  nth_error (tables (fst (applyGridLayout st))) i = Some a ->
  nth_error (tables (fst (applyGridLayout st))) j = Some b ->
  i <> j ->
  positionOf a <> positionOf b
  /\ (i / 3 = j / 3 ->
      exists xa xb,
        tbl_x a = Some xa /\ tbl_x b = Some xb
        /\ tbl_width a = Some 280%R /\ tbl_width b = Some 280%R
        /\ (350 <= Rabs (xa - xb))%R).
Proof.
  intros Hwf Ha Hb Hij.
  destruct (applyGridLayout_at st i a Hwf Ha) as [ta [ca [_ [_ ->]]]].
  destruct (applyGridLayout_at st j b Hwf Hb) as [tb [cb [_ [_ ->]]]].
  unfold positionOf. cbn [tbl_x tbl_y tbl_width]. split.
  - intros Heq.
    assert (Hx : (100 + INR (i mod 3) * 350 = 100 + INR (j mod 3) * 350)%R)
      by congruence.
    assert (Hy : (100 + INR (i / 3) * 250 = 100 + INR (j / 3) * 250)%R)
      by congruence.
    assert (Hm : i mod 3 = j mod 3) by (apply INR_eq; lra).
    assert (Hd : i / 3 = j / 3) by (apply INR_eq; lra).
    apply Hij.
    rewrite (Nat.div_mod_eq i 3), (Nat.div_mod_eq j 3). now rewrite Hm, Hd.
  - intros Hrow. do 2 eexists.
    split; [reflexivity|]. split; [reflexivity|].
    split; [reflexivity|]. split; [reflexivity|].
    assert (Hm : i mod 3 <> j mod 3).
    { intros Hm. apply Hij.
      rewrite (Nat.div_mod_eq i 3), (Nat.div_mod_eq j 3).
      now rewrite Hm, Hrow. }
    pose proof (INR_apart _ _ Hm) as Hapart.
    replace (100 + INR (i mod 3) * 350 - (100 + INR (j mod 3) * 350))%R
      with ((INR (i mod 3) - INR (j mod 3)) * 350)%R by ring.
    rewrite Rabs_mult, (Rabs_right 350) by lra. lra.
Qed.

Lemma grid_positions_distinct_witness :
  exists a b,
    nth_error (tables (fst (applyGridLayout
                              (setTables initialState [userTable; ordersTable])))) 0
    = Some a
    /\ nth_error (tables (fst (applyGridLayout
                                 (setTables initialState [userTable; ordersTable])))) 1
       = Some b
    /\ positionOf a <> positionOf b.
Proof.
  do 2 eexists. split; [reflexivity|]. split; [reflexivity|].
  eapply (grid_positions_distinct
            (setTables initialState [userTable; ordersTable]) 0 1).
  - repeat constructor; discriminate.
  - reflexivity.
  - reflexivity.
  - discriminate.
Defined.

(** X9. Auto placement puts every table on one circle: the point 140 right
    of and 100 below its top-left corner is at distance [min(W, H) / 3] from
    the canvas midpoint. *)
Theorem auto_layout_on_circle (st : State) (i : nat) (a : Table) :
  Forall wellFormed (tables st) ->
  nth_error (tables (fst (applyAutoLayout st))) i = Some a ->
  exists x y,
    tbl_x a = Some x /\ tbl_y a = Some y
    /\ ((x + 140 - svgWidth st / 2) * (x + 140 - svgWidth st / 2)
        + (y + 100 - svgHeight st / 2) * (y + 100 - svgHeight st / 2)
        = (Rmin (svgWidth st) (svgHeight st) / 3)
          * (Rmin (svgWidth st) (svgHeight st) / 3))%R.
Proof.
  intros Hwf Ha.
  destruct (applyAutoLayout_at st i a Hwf Ha) as [t [cols [_ [_ ->]]]].
  do 2 eexists. split; [reflexivity|]. split; [reflexivity|].
  set (r := (Rmin (svgWidth st) (svgHeight st) / 3)%R).
  set (theta := (INR i * 2 * PI / INR (List.length (tables st)))%R).
  pose proof (sin2_cos2 theta) as Hunit. unfold Rsqr in Hunit.
  replace ((svgWidth st / 2 + r * cos theta - 140 + 140 - svgWidth st / 2)
           * (svgWidth st / 2 + r * cos theta - 140 + 140 - svgWidth st / 2)
           + (svgHeight st / 2 + r * sin theta - 100 + 100 - svgHeight st / 2)
             * (svgHeight st / 2 + r * sin theta - 100 + 100
                - svgHeight st / 2))%R
    with (r * r * (sin theta * sin theta + cos theta * cos theta))%R by ring.
  rewrite Hunit. ring.
Qed.

Lemma auto_layout_on_circle_witness :
  exists a x y,
    nth_error (tables (fst (applyAutoLayout
                              (setTables initialState [userTable; ordersTable])))) 1
    = Some a
    /\ tbl_x a = Some x /\ tbl_y a = Some y.
Proof.
  destruct (auto_layout_on_circle
              (setTables initialState [userTable; ordersTable]) 1)
    with (a := fst (autoPlace 1200 800 2 1 ordersTable))
    as [x [y [Hx [Hy _]]]].
  - repeat constructor; discriminate.
  - reflexivity.
  - exists (fst (autoPlace 1200 800 2 1 ordersTable)), x, y.
    split; [reflexivity|]. split; [exact Hx | exact Hy].
Defined.

(** X10. On a canvas at least 840 wide and 600 high, auto placement keeps
    every table between the left and right edges and below the top edge;
    a table whose column count [c] satisfies [25 c <= H / 6 - 100] also
    stays above the bottom edge, hence within the canvas. *)
Theorem auto_layout_inside_large_canvas (st : State) (i : nat) (a : Table) :
  (840 <= svgWidth st)%R ->
  (600 <= svgHeight st)%R ->
  Forall wellFormed (tables st) ->
  nth_error (tables (fst (applyAutoLayout st))) i = Some a ->
  exists x y cols,
    tbl_x a = Some x /\ tbl_y a = Some y /\ tbl_width a = Some 280%R
    /\ tbl_columns a = Some cols
    /\ (0 <= x <= svgWidth st - 280)%R /\ (0 <= y)%R
    /\ ((25 * INR (List.length cols) <= svgHeight st / 6 - 100)%R ->
        withinCanvas (svgWidth st) (svgHeight st) a).
Proof.
  intros HW HH Hwf Ha.
  destruct (applyAutoLayout_at st i a Hwf Ha) as [t [cols [_ [_ ->]]]].
  set (theta := (INR i * 2 * PI / INR (List.length (tables st)))%R).
  set (m := Rmin (svgWidth st) (svgHeight st)).
  assert (Hm0 : (0 <= m)%R) by (apply Rmin_glb; lra).
  assert (HmW : (m <= svgWidth st)%R) by apply Rmin_l.
  assert (HmH : (m <= svgHeight st)%R) by apply Rmin_r.
  pose proof (COS_bound theta) as [Hc1 Hc2].
  pose proof (SIN_bound theta) as [Hs1 Hs2].
  assert (Hcl : (- (m / 3) <= m / 3 * cos theta)%R) by nra.
  assert (Hcu : (m / 3 * cos theta <= m / 3)%R) by nra.
  assert (Hsl : (- (m / 3) <= m / 3 * sin theta)%R) by nra.
  assert (Hsu : (m / 3 * sin theta <= m / 3)%R) by nra.
  do 3 eexists. simpl.
  split; [reflexivity|]. split; [reflexivity|]. split; [reflexivity|].
  split; [reflexivity|].
  split; [lra|]. split; [lra|].
  intros Hcount. unfold withinCanvas. simpl.
  do 4 eexists. repeat split; try reflexivity; lra.
Qed.

Lemma auto_layout_inside_large_canvas_witness :
  exists a,
    nth_error (tables (fst (applyAutoLayout
                              (setTables initialState [userTable; ordersTable])))) 0
    = Some a
    /\ withinCanvas 1200 800 a.
Proof.
  destruct (auto_layout_inside_large_canvas
              (setTables initialState [userTable; ordersTable]) 0
              (fst (autoPlace 1200 800 2 0 userTable)))
    as [x [y [cols [_ [_ [_ [Hcols [_ [_ Hin]]]]]]]]].
  - simpl. lra.
  - simpl. lra.
  - repeat constructor; discriminate.
  - reflexivity.
  - exists (fst (autoPlace 1200 800 2 0 userTable)).
    split; [reflexivity|]. apply Hin.
    simpl in Hcols. injection Hcols as <-. simpl. lra.
Defined.

(** ** Layout and reload *)

Lemma assignGeometry_schemaOf_eq t t' x y :
  schemaOf t = schemaOf t' -> wellFormed t ->
  assignGeometry t x y = assignGeometry t' x y.
Proof.
  unfold schemaOf, wellFormed, assignGeometry. intros H Hwf.
  assert (Hn : tbl_name t = tbl_name t') by congruence.
  assert (Hc : tbl_columns t = tbl_columns t') by congruence.
  rewrite <- Hc, <- Hn.
  destruct (tbl_columns t); [reflexivity | congruence].
Qed.

Lemma forEachFrom_schemaOf_eq callback :
  (forall k t t', schemaOf t = schemaOf t' -> wellFormed t ->
                  callback k t = callback k t') ->
  (forall k t, wellFormed t -> snd (callback k t) = Completed) ->
  forall ts ts' index,
    map schemaOf ts = map schemaOf ts' -> Forall wellFormed ts ->
    forEachFrom callback index ts = forEachFrom callback index ts'.
Proof.
  intros Hc Hdone. induction ts as [|a ts IH]; intros [|a' ts'] index H Hwf;
    simpl in *; try discriminate; [reflexivity|].
  assert (Ha : schemaOf a = schemaOf a') by congruence.
  assert (Hrest : map schemaOf ts = map schemaOf ts') by congruence.
  inversion Hwf as [|? ? Hwa Hwrest]; subst.
  pose proof (Hdone index a Hwa) as Hsnd.
  rewrite (Hc index a a' Ha Hwa) in Hsnd |- *.
  destruct (callback index a') as [b o]. simpl in Hsnd. subst o.
  now rewrite (IH ts' (S index) Hrest Hwrest).
Qed.

Lemma autoLayoutTables_schemaOf_eq W H ts ts' :
  map schemaOf ts = map schemaOf ts' -> Forall wellFormed ts ->
  autoLayoutTables W H ts = autoLayoutTables W H ts'.
Proof.
  intros Hs Hwf. unfold autoLayoutTables.
  rewrite (layout_length_schemaOf ts' ts Hs).
  apply forEachFrom_schemaOf_eq; auto.
  - intros k t t' Ht Hwt. unfold autoPlace.
    now apply assignGeometry_schemaOf_eq.
  - intros k t. apply autoPlace_completes.
Qed.

(** X11. Auto placement depends on the names and columns of the tables, on
    their order and on the canvas size only: two models that differ in the
    stored geometry alone get the same layout. In particular positions set
    by dragging are discarded, and applying the layout twice gives what
    applying it once gives. *)
Theorem applyAutoLayout_forgets_positions (st st' : State) :
  Forall wellFormed (tables st) ->
  map schemaOf (tables st) = map schemaOf (tables st') ->
  svgWidth st = svgWidth st' ->
  svgHeight st = svgHeight st' ->
  tables (fst (applyAutoLayout st)) = tables (fst (applyAutoLayout st'))
  /\ tables (fst (applyAutoLayout (fst (applyAutoLayout st))))
     = tables (fst (applyAutoLayout st)).
Proof.
  intros Hwf Hs HW HH. unfold applyAutoLayout. split.
  - rewrite <- HW, <- HH.
    rewrite (autoLayoutTables_schemaOf_eq _ _ (tables st) (tables st') Hs Hwf).
    destruct (autoLayoutTables _ _ (tables st')); reflexivity.
  - pose proof (autoLayoutTables_schemaOf (svgWidth st) (svgHeight st)
                  (tables st)) as Hkeep.
    destruct (autoLayoutTables (svgWidth st) (svgHeight st) (tables st))
      as [ts1 o1] eqn:E1. simpl in *.
    rewrite (autoLayoutTables_schemaOf_eq _ _ ts1 (tables st) Hkeep).
    + now rewrite E1.
    + apply (wellFormed_schemaOf (tables st) ts1); auto.
Qed.

Lemma applyAutoLayout_forgets_positions_witness :
  tables (fst (applyAutoLayout manualState))
  = tables (fst (applyAutoLayout
                   (setTables manualState [userTable; ordersTable]))).
Proof.
  apply (applyAutoLayout_forgets_positions manualState
           (setTables manualState [userTable; ordersTable])).
  - repeat constructor; discriminate.
  - reflexivity.
  - reflexivity.
  - reflexivity.
Defined.

Lemma detectRelationships_tables st :
  tables (fst (detectRelationships st)) = tables st.
Proof.
  unfold detectRelationships.
  destruct (visitTables (tables st) (tables st) []); reflexivity.
Qed.

(** The [try] block on a received table list, with the layout step named
    once. *)
Lemma loadSchemaBody_tables (st : State) (ts : list Table) :
  loadSchemaBody st (TablesField ts)
  = let (ts', o) :=
      if autoLayout st then autoLayoutTables (svgWidth st) (svgHeight st) ts
      else if negb (num_truthy (firstX ts)) then gridLayoutTables ts
      else (ts, Completed) in
    match o with
    | Threw => (setTables st ts', Threw)
    | Completed =>
        let (rels, o') := visitTables ts' ts' [] in
        (setRelationships (setTables st ts') rels, o')
    end.
Proof.
  destruct st as [tb rl ld al w h].
  unfold loadSchemaBody, applyAutoLayout, applyGridLayout, detectRelationships.
  cbn [autoLayout tables svgWidth svgHeight setTables].
  destruct al.
  - destruct (autoLayoutTables w h ts) as [ts' [|]]; reflexivity.
  - destruct (negb (num_truthy (firstX ts))).
    + destruct (gridLayoutTables ts) as [ts' [|]]; reflexivity.
    + reflexivity.
Qed.

(** X12. Refreshing is idempotent: whatever the response (failed request,
    missing table list, well-formed or malformed tables), loading it a
    second time leaves the state the first load produced. *)
Theorem loadSchema_idempotent (st : State) (resp : Response) :
  loadSchema (loadSchema st resp) resp = loadSchema st resp.
Proof.
  destruct st as [tb rl ld al w h].
  destruct resp as [| |ts].
  - reflexivity.
  - unfold loadSchema, loadSchemaBody, applyAutoLayout, applyGridLayout,
      detectRelationships. simpl. destruct al; reflexivity.
  - unfold loadSchema at 2 3. rewrite loadSchemaBody_tables.
    cbn [autoLayout tables svgWidth svgHeight setLoading].
    destruct (if al then autoLayoutTables w h ts
              else if negb (num_truthy (firstX ts)) then gridLayoutTables ts
              else (ts, Completed)) as [ts' o] eqn:E.
    destruct o.
    + destruct (visitTables ts' ts' []) as [rels o'] eqn:Ev.
      cbn [fst setRelationships setTables setLoading tables relationships
           loading autoLayout svgWidth svgHeight].
      unfold loadSchema. rewrite loadSchemaBody_tables.
      cbn [autoLayout tables svgWidth svgHeight setLoading setTables
           setRelationships].
      rewrite E, Ev. reflexivity.
    + cbn [fst setRelationships setTables setLoading tables relationships
           loading autoLayout svgWidth svgHeight].
      unfold loadSchema. rewrite loadSchemaBody_tables.
      cbn [autoLayout tables svgWidth svgHeight setLoading setTables
           setRelationships].
      rewrite E. reflexivity.
Qed.

(** X13. In manual mode a load keeps the received positions when the first
    table arrives with a non-zero [x], whatever the other tables carry;
    otherwise (first [x] missing or zero) every table is put on the grid,
    three per row, 350 apart horizontally and 250 vertically from
    [(100, 100)], and any received position is overwritten. *)
Theorem loadSchema_manual_positions (st : State) (ts : list Table) :
  autoLayout st = false ->
  (num_truthy (firstX ts) = true ->
     tables (loadSchema st (TablesField ts)) = ts)
  /\ (num_truthy (firstX ts) = false -> Forall wellFormed ts ->
      forall i t cols,
        nth_error ts i = Some t -> tbl_columns t = Some cols ->
        nth_error (tables (loadSchema st (TablesField ts))) i
        = Some (mkTable (tbl_name t) (Some cols)
                  (Some (100 + INR (i mod 3) * 350)%R)
                  (Some (100 + INR (i / 3) * 250)%R)
                  (Some 280%R)
                  (Some (200 + INR (List.length cols) * 25)%R))).
Proof.
  intros Hmanual. unfold loadSchema, loadSchemaBody.
  change (autoLayout (setTables (setLoading st true) ts)) with (autoLayout st).
  change (tables (setTables (setLoading st true) ts)) with ts.
  rewrite Hmanual. split.
  - intros Htruthy. rewrite Htruthy. simpl negb. cbv iota.
    change (tables (setLoading ?s false)) with (tables s).
    now rewrite detectRelationships_tables.
  - intros Hfalsy Hwf i t cols Hnth Hcols. rewrite Hfalsy. simpl negb.
    cbv iota.
    destruct (applyGridLayout_nth (setTables (setLoading st true) ts)
                i t cols Hwf Hnth Hcols) as [Hdone Hat].
    destruct (applyGridLayout (setTables (setLoading st true) ts))
      as [st1 o]. simpl in Hdone, Hat. subst o.
    change (tables (setLoading ?s false)) with (tables s).
    now rewrite detectRelationships_tables.
Qed.

Lemma loadSchema_manual_positions_witness :
  tables (loadSchema manualState (TablesField [placedUser; ordersTable]))
  = [placedUser; ordersTable].
Proof.
  destruct (loadSchema_manual_positions manualState [placedUser; ordersTable])
    as [Hkeep _].
  - reflexivity.
  - apply Hkeep. unfold num_truthy. simpl.
    destruct (Req_dec_T 100 0) as [H|H]; [exfalso; lra | reflexivity].
Defined.

Lemma hasTable_schemaOf ts ts' n :
  map schemaOf ts = map schemaOf ts' -> hasTable ts n -> hasTable ts' n.
Proof.
  intros Hs Hhas. apply existsb_hasTable.
  rewrite <- (existsb_schemaOf n ts ts' Hs). now apply existsb_hasTable.
Qed.

Lemma renderCubic_not_empty show c : renderCubic show c <> "".
Proof. unfold renderCubic. simpl. discriminate. Qed.

(** X14. After the load of a well-formed table list every relationship of
    the state has both its tables in the state, so its connector is drawn:
    the path is never empty. *)
Theorem loaded_relationships_have_paths (numberToString : num -> string)
    (st : State) (ts : list Table) (r : Relationship) :
  Forall wellFormed ts ->
  In r (relationships (loadSchema st (TablesField ts))) ->
  hasTable (tables (loadSchema st (TablesField ts))) (rel_from r)
  /\ hasTable (tables (loadSchema st (TablesField ts))) (rel_to r)
  /\ calculateConnectionPath numberToString
       (tables (loadSchema st (TablesField ts))) r <> "".
Proof.
  intros Hwf Hin.
  destruct (loadSchema_wellFormed st ts Hwf) as [Hs [Hr _]].
  rewrite Hr in Hin. unfold inferRelationships in Hin.
  apply in_flat_map in Hin as [T [HT Hin]].
  apply in_flat_map in Hin as [c [Hc Hem]].
  apply emitted_sound in Hem as [Hto [_ [_ [Hfrom _]]]].
  assert (Hto' : hasTable ts (rel_to r)) by (exists T; auto).
  symmetry in Hs.
  apply (hasTable_schemaOf _ _ _ Hs) in Hfrom.
  apply (hasTable_schemaOf _ _ _ Hs) in Hto'.
  split; [exact Hfrom|]. split; [exact Hto'|].
  destruct (findTable_some _ _ Hfrom) as [f [Ef _]].
  destruct (findTable_some _ _ Hto') as [t [Et _]].
  rewrite (calculateConnectionPath_found _ _ r f t Ef Et).
  apply renderCubic_not_empty.
Qed.

Lemma loaded_relationships_have_paths_witness :
  calculateConnectionPath
    (fun v : num => match v with Some _ => "n" | None => "NaN" end)
    (tables (loadSchema initialState (TablesField [userTable; ordersTable])))
    (mkRel "user" "orders" "user_id" "foreign_key") <> "".
Proof.
  apply (loaded_relationships_have_paths _ initialState
           [userTable; ordersTable]).
  - repeat constructor; discriminate.
  - destruct (loadSchema_wellFormed initialState [userTable; ordersTable])
      as [_ [Hr _]]; [repeat constructor; discriminate|].
    rewrite Hr. simpl. left. reflexivity.
Defined.

(** ** Interaction *)

Lemma handleDrag_keeps env event t :
  exists t',
    handleDrag env event (Some t) = Some t'
    /\ schemaOf t' = schemaOf t /\ sizeOf t' = sizeOf t.
Proof. unfold handleDrag. eexists. repeat split. Qed.

Lemma handleDrag_forgets env event event' t :
  handleDrag env event (handleDrag env event' (Some t))
  = handleDrag env event (Some t).
Proof. reflexivity. Qed.

(** X15. The position a drag ends at depends on the last pointer move only:
    running the handler on any sequence of moves and then on one more gives
    what the handler gives on that last move alone. *)
Theorem drag_depends_on_last_move (env : DragEnv) (events : list MouseEvent)
    (event : MouseEvent) (t : Table) :
  dragSequence env (events ++ [event]) (Some t)
  = handleDrag env event (Some t).
Proof.
  revert t. induction events as [|e events IH]; intros t.
  - reflexivity.
  - change (dragSequence env ((e :: events) ++ [event]) (Some t))
      with (dragSequence env (events ++ [event]) (handleDrag env e (Some t))).
    destruct (handleDrag_keeps env e t) as [t1 [E1 _]].
    rewrite E1, IH, <- E1. apply handleDrag_forgets.
Qed.

Lemma dispatch_flags s e :
  (dragTable s = None <-> onMouseMove s = false) ->
  onMouseUp s = onMouseMove s ->
  (dragTable (dispatch s e) = None <-> onMouseMove (dispatch s e) = false)
  /\ onMouseUp (dispatch s e) = onMouseMove (dispatch s e).
Proof.
  intros Hiff Hup. destruct e as [index event l t|event l t|]; simpl.
  - destruct (nth_error (tables (ui s)) index); [|tauto].
    unfold startDrag. destruct (autoLayout (ui s)); [tauto|]. simpl.
    split; [split; discriminate | reflexivity].
  - destruct (onMouseMove s) eqn:Emove; [|rewrite Emove; tauto].
    unfold handleDragOn. destruct (dragTable s) as [index|] eqn:Edrag.
    + destruct (handleDrag _ event _); simpl; rewrite ?Edrag, ?Emove; tauto.
    + rewrite Edrag, Emove. tauto.
  - destruct (onMouseUp s) eqn:Eup; simpl.
    + split; [split; reflexivity | reflexivity].
    + rewrite ?Eup. split; [exact Hiff | exact Hup].
Qed.

Lemma runEvents_flags : forall events s,
  (dragTable s = None <-> onMouseMove s = false) ->
  onMouseUp s = onMouseMove s ->
  (dragTable (runEvents s events) = None
   <-> onMouseMove (runEvents s events) = false)
  /\ onMouseUp (runEvents s events) = onMouseMove (runEvents s events).
Proof.
  induction events as [|e events IH]; intros s Hiff Hup; [auto|].
  destruct (dispatch_flags s e Hiff Hup) as [Hiff' Hup'].
  now apply (IH (dispatch s e)).
Qed.

(** X16. Starting from the idle state, after any sequence of pointer events
    the two document listeners are registered together and exactly while a
    table is being dragged; one more [mouseup] always brings the controller
    back to idle, with no listener left behind. *)
Theorem listeners_follow_drag (s : Interaction) (events : list PointerEvent) :
  idle s ->
  (dragTable (runEvents s events) = None
   <-> onMouseMove (runEvents s events) = false)
  /\ onMouseUp (runEvents s events) = onMouseMove (runEvents s events)
  /\ idle (runEvents s (events ++ [MouseUp])).
Proof.
  intros [Hdrag [Hmove Hup]].
  destruct (runEvents_flags events s) as [Hiff Hboth].
  { rewrite Hdrag, Hmove. tauto. }
  { congruence. }
  split; [exact Hiff|]. split; [exact Hboth|].
  unfold runEvents in *. rewrite fold_left_app. simpl.
  set (s' := fold_left dispatch events s) in *.
  unfold idle. destruct (onMouseUp s') eqn:Eup; simpl.
  - auto.
  - rewrite Eup. rewrite <- Hboth. split; [|auto]. apply Hiff. congruence.
Qed.

Lemma listeners_follow_drag_witness :
  idle (runEvents idleManual
          ([MouseDown 0 (mkMouseEvent 150 150) 100 100;
            MouseMove (mkMouseEvent 300 200) 0 0] ++ [MouseUp])).
Proof.
  apply (listeners_follow_drag idleManual
           [MouseDown 0 (mkMouseEvent 150 150) 100 100;
            MouseMove (mkMouseEvent 300 200) 0 0]).
  repeat split.
Defined.

(** X17. In auto-layout mode dragging is disabled: from the idle state no
    sequence of pointer events changes anything, neither a table position
    nor the controller itself. *)
Theorem auto_mode_ignores_pointer (s : Interaction)
    (events : list PointerEvent) :
  idle s ->
  autoLayout (ui s) = true ->
  runEvents s events = s.
Proof.
  intros [Hdrag [Hmove Hup]] Hauto.
  induction events as [|e events IH]; [reflexivity|].
  unfold runEvents in *. simpl.
  assert (Hstep : dispatch s e = s).
  { destruct e as [index event l t|event l t|]; simpl.
    - destruct (nth_error (tables (ui s)) index); [|reflexivity].
      unfold startDrag. now rewrite Hauto.
    - now rewrite Hmove.
    - now rewrite Hup. }
  now rewrite Hstep.
Qed.

Lemma auto_mode_ignores_pointer_witness :
  let s := mkInteraction
             (setTables initialState [placedUser; placedOrders])
             None (0%R, 0%R) false false in
  runEvents s [MouseDown 0 (mkMouseEvent 150 150) 100 100;
               MouseMove (mkMouseEvent 300 200) 0 0; MouseUp] = s.
Proof.
  intros s. apply (auto_mode_ignores_pointer s).
  - repeat split.
  - reflexivity.
Defined.

Lemma updateAt_map {A B : Type} (f : A -> B) (v a : A) : forall l i,
  nth_error l i = Some a -> f v = f a ->
  map f (updateAt i v l) = map f l.
Proof.
  induction l as [|b l IH]; intros [|i] Hnth Hf; simpl in *;
    try discriminate.
  - injection Hnth as ->. now rewrite Hf.
  - now rewrite (IH i Hnth Hf).
Qed.

Lemma updateAt_Forall {A : Type} (P : A -> Prop) (v : A) : forall l i,
  Forall P l -> P v -> Forall P (updateAt i v l).
Proof.
  induction l as [|b l IH]; intros [|i] Hall Hv; simpl; auto;
    inversion Hall; subst; constructor; auto.
Qed.

Lemma dispatch_keeps s e :
  map schemaOf (tables (ui (dispatch s e))) = map schemaOf (tables (ui s))
  /\ map sizeOf (tables (ui (dispatch s e))) = map sizeOf (tables (ui s))
  /\ relationships (ui (dispatch s e)) = relationships (ui s)
  /\ autoLayout (ui (dispatch s e)) = autoLayout (ui s)
  /\ svgWidth (ui (dispatch s e)) = svgWidth (ui s)
  /\ svgHeight (ui (dispatch s e)) = svgHeight (ui s).
Proof.
  destruct e as [index event l t|event l t|]; simpl.
  - destruct (nth_error (tables (ui s)) index); [|tauto].
    unfold startDrag. destruct (autoLayout (ui s)) eqn:E; simpl; rewrite ?E;
      tauto.
  - destruct (onMouseMove s); [|tauto].
    unfold handleDragOn. destruct (dragTable s) as [index|]; [|tauto].
    destruct (nth_error (tables (ui s)) index) as [u|] eqn:Eu;
      [|simpl; tauto].
    destruct (handleDrag_keeps (dragEnvOf s l t) event u)
      as [u' [E [Hschema Hsize]]].
    rewrite E. simpl.
    rewrite (updateAt_map schemaOf u' u _ _ Eu Hschema).
    rewrite (updateAt_map sizeOf u' u _ _ Eu Hsize). tauto.
  - destruct (onMouseUp s); simpl; tauto.
Qed.

(** X18. Pointer events only ever move tables: after any sequence of them
    the tables are the same in number, order, names, columns, widths and
    heights, and the relationships, the layout mode and the canvas size are
    untouched. *)
Theorem pointer_events_only_move (s : Interaction)
    (events : list PointerEvent) :
  map schemaOf (tables (ui (runEvents s events)))
  = map schemaOf (tables (ui s))
  /\ map sizeOf (tables (ui (runEvents s events)))
     = map sizeOf (tables (ui s))
  /\ relationships (ui (runEvents s events)) = relationships (ui s)
  /\ autoLayout (ui (runEvents s events)) = autoLayout (ui s)
  /\ svgWidth (ui (runEvents s events)) = svgWidth (ui s)
  /\ svgHeight (ui (runEvents s events)) = svgHeight (ui s).
Proof.
  revert s. induction events as [|e events IH]; intros s.
  - repeat split.
  - change (runEvents s (e :: events)) with (runEvents (dispatch s e) events).
    destruct (IH (dispatch s e)) as [H1 [H2 [H3 [H4 [H5 H6]]]]].
    destruct (dispatch_keeps s e) as [K1 [K2 [K3 [K4 [K5 K6]]]]].
    repeat split; congruence.
Qed.

Lemma handleDrag_within env event t :
  withinCanvas (drag_svgWidth env) (drag_svgHeight env) t ->
  exists t',
    handleDrag env event (Some t) = Some t'
    /\ withinCanvas (drag_svgWidth env) (drag_svgHeight env) t'.
Proof.
  intros [x [y [w [h [_ [_ [Hw [Hh [Bx By]]]]]]]]].
  rewrite (handleDrag_laidOut env event t w h Hw Hh).
  eexists. split; [reflexivity|]. unfold withinCanvas. simpl.
  do 4 eexists. repeat split; try reflexivity;
    try apply clamp_lower; apply clamp_upper; lra.
Qed.

Lemma dispatch_within s e :
  Forall (withinCanvas (svgWidth (ui s)) (svgHeight (ui s))) (tables (ui s)) ->
  Forall (withinCanvas (svgWidth (ui s)) (svgHeight (ui s)))
         (tables (ui (dispatch s e))).
Proof.
  intros Hall. destruct e as [index event l t|event l t|]; simpl.
  - destruct (nth_error (tables (ui s)) index); [|exact Hall].
    unfold startDrag. destruct (autoLayout (ui s)); exact Hall.
  - destruct (onMouseMove s); [|exact Hall].
    unfold handleDragOn. destruct (dragTable s) as [index|]; [|exact Hall].
    destruct (nth_error (tables (ui s)) index) as [u|] eqn:Eu;
      [|simpl; exact Hall].
    pose proof (proj1 (Forall_forall _ _) Hall u (nth_error_In _ _ Eu)) as Hu.
    destruct (handleDrag_within (dragEnvOf s l t) event u Hu)
      as [u' [E Hu']].
    rewrite E. simpl. now apply updateAt_Forall.
  - destruct (onMouseUp s); exact Hall.
Qed.

(** X19. If every table lies within the canvas, then after any sequence of
    pointer events every table still lies within the canvas, wherever the
    pointer went and whichever tables were grabbed. *)
Theorem pointer_events_keep_bounds (s : Interaction)
    (events : list PointerEvent) :
  Forall (withinCanvas (svgWidth (ui s)) (svgHeight (ui s))) (tables (ui s)) ->
  Forall (withinCanvas (svgWidth (ui s)) (svgHeight (ui s)))
         (tables (ui (runEvents s events))).
Proof.
  revert s. induction events as [|e events IH]; intros s Hall; [exact Hall|].
  change (runEvents s (e :: events)) with (runEvents (dispatch s e) events).
  destruct (dispatch_keeps s e) as [_ [_ [_ [_ [HW HH]]]]].
  rewrite <- HW, <- HH. apply IH. rewrite HW, HH.
  now apply dispatch_within.
Qed.

Lemma pointer_events_keep_bounds_witness :
  Forall (withinCanvas 1200 800)
         (tables (ui (runEvents idleManual
                        [MouseDown 1 (mkMouseEvent 500 150) 450 100;
                         MouseMove (mkMouseEvent 5000 (-300)) 0 0;
                         MouseUp]))).
Proof.
  apply (pointer_events_keep_bounds idleManual).
  repeat constructor; unfold withinCanvas; simpl;
    do 4 eexists; repeat split; try reflexivity; lra.
Defined.

(** ** Export and reload *)

Lemma forEachTable_wellFormed : forall ts sql out,
  forEachTable ts sql = Some out -> Forall wellFormed ts.
Proof.
  induction ts as [|t ts IH]; intros sql out H; constructor;
    simpl in H; unfold wellFormed.
  - destruct (tbl_columns t); congruence.
  - destruct (tbl_columns t); [eapply IH; eauto | discriminate].
Qed.

Lemma forEachTable_schemaOf : forall ts ts' sql,
  map schemaOf ts = map schemaOf ts' ->
  forEachTable ts sql = forEachTable ts' sql.
Proof.
  induction ts as [|t ts IH]; intros [|t' ts'] sql H; simpl in *;
    try discriminate; [reflexivity|].
  assert (Hn : tbl_name t = tbl_name t') by (unfold schemaOf in H; congruence).
  assert (Hc : tbl_columns t = tbl_columns t')
    by (unfold schemaOf in H; congruence).
  assert (Hrest : map schemaOf ts = map schemaOf ts') by congruence.
  rewrite Hn, Hc. destruct (tbl_columns t'); [|reflexivity].
  now apply IH.
Qed.

(** X20. The SQL export produces a file exactly when every table carries
    its column array (one table without it makes the export throw and
    nothing is downloaded), and the text is then the header followed by one
    [CREATE TABLE] block per table in model order. The text depends on
    names and columns only: positions and sizes never change it. *)
Theorem exportAsSQL_defined (now : string) (ts : list Table) :
  (exportAsSQL now ts = None <-> ~ Forall wellFormed ts)
  /\ (Forall wellFormed ts ->
      exportAsSQL now ts
      = Some (sqlHeader now
              ++ String.concat "" (map (createTable truthy) ts))%string)
  /\ (forall ts', map schemaOf ts = map schemaOf ts' ->
                  exportAsSQL now ts = exportAsSQL now ts').
Proof.
  split; [split|split].
  - intros Hnone Hwf. rewrite exportAsSQL_document in Hnone by assumption.
    discriminate.
  - intros Hnot. destruct (exportAsSQL now ts) as [out|] eqn:E; [|reflexivity].
    exfalso. apply Hnot. unfold exportAsSQL in E.
    eapply forEachTable_wellFormed; eauto.
  - intros Hwf. now rewrite exportAsSQL_document.
  - intros ts' Hs. unfold exportAsSQL. now apply forEachTable_schemaOf.
Qed.

Lemma exportAsSQL_defined_witness :
  exportAsSQL "2026-01-01T00:00:00.000Z" [placedUser; placedOrders]
  = exportAsSQL "2026-01-01T00:00:00.000Z" [userTable; ordersTable].
Proof.
  destruct (exportAsSQL_defined "2026-01-01T00:00:00.000Z"
              [placedUser; placedOrders]) as [_ [_ Hsame]].
  apply Hsame. reflexivity.
Defined.

(** X21. A load never alters the names or the columns of the tables it
    received, not even when the layout or the inference throws part-way:
    the tables of the state are the received ones up to geometry, so the
    SQL export of the state is the export of the received list. *)
Theorem loadSchema_keeps_schema (st : State) (ts : list Table) (now : string) :
  map schemaOf (tables (loadSchema st (TablesField ts))) = map schemaOf ts
  /\ exportAsSQL now (tables (loadSchema st (TablesField ts)))
     = exportAsSQL now ts.
Proof.
  assert (Hs : map schemaOf (tables (loadSchema st (TablesField ts)))
               = map schemaOf ts).
  { unfold loadSchema. rewrite loadSchemaBody_tables.
    cbn [autoLayout svgWidth svgHeight setLoading].
    assert (Hlayout :
      map schemaOf
          (fst (if autoLayout st
                then autoLayoutTables (svgWidth st) (svgHeight st) ts
                else if negb (num_truthy (firstX ts)) then gridLayoutTables ts
                else (ts, Completed)))
      = map schemaOf ts).
    { destruct (autoLayout st); [apply autoLayoutTables_schemaOf|].
      destruct (negb (num_truthy (firstX ts)));
        [apply gridLayoutTables_schemaOf | reflexivity]. }
    destruct (if autoLayout st
              then autoLayoutTables (svgWidth st) (svgHeight st) ts
              else if negb (num_truthy (firstX ts)) then gridLayoutTables ts
              else (ts, Completed)) as [ts' o].
    simpl in Hlayout. destruct o.
    - destruct (visitTables ts' ts' []) as [rels o']. exact Hlayout.
    - exact Hlayout. }
  split; [exact Hs|].
  unfold exportAsSQL. now apply forEachTable_schemaOf.
Qed.

(** ** Grabbing and moving *)

Lemma updateAt_same {A : Type} (v : A) : forall l i a,
  nth_error l i = Some a -> nth_error (updateAt i v l) i = Some v.
Proof.
  induction l as [|b l IH]; intros [|i] a H; simpl in *; try discriminate;
    [reflexivity | eapply IH; eauto].
Qed.

Lemma updateAt_other {A : Type} (v : A) : forall l i j,
  i <> j -> nth_error (updateAt i v l) j = nth_error l j.
Proof.
  induction l as [|b l IH]; intros [|i] [|j] H; simpl; auto;
    congruence.
Qed.

(** X22. In manual mode, grabbing a table and then moving the pointer by
    [(dx, dy)] puts that table where the grabbed element's corner was
    (relative to the container) plus [(dx, dy)], clamped to the canvas; the
    offset of the grab inside the element is kept, every other table stays
    where it was, and the drag remains armed. *)
Theorem grab_then_move (s : Interaction) (index : nat) (t : Table)
    (w h : R) (down move : MouseEvent)
    (targetLeft targetTop boxLeft boxTop : R) :
  autoLayout (ui s) = false ->
  nth_error (tables (ui s)) index = Some t ->
  tbl_width t = Some w ->
  tbl_height t = Some h ->
  let s' := runEvents s [MouseDown index down targetLeft targetTop;
                         MouseMove move boxLeft boxTop] in
  nth_error (tables (ui s')) index
  = Some (mkTable (tbl_name t) (tbl_columns t)
            (Some (Rmax 0 (Rmin (svgWidth (ui s) - w)
                     (targetLeft - boxLeft
                      + (clientX move - clientX down)))))
            (Some (Rmax 0 (Rmin (svgHeight (ui s) - h)
                     (targetTop - boxTop
                      + (clientY move - clientY down)))))
            (Some w) (Some h))
  /\ (forall j, j <> index ->
        nth_error (tables (ui s')) j = nth_error (tables (ui s)) j)
  /\ dragTable s' = Some index.
Proof.
  intros Hmanual Hnth Hw Hh s'. subst s'.
  change (runEvents s [MouseDown index down targetLeft targetTop;
                       MouseMove move boxLeft boxTop])
    with (dispatch (dispatch s (MouseDown index down targetLeft targetTop))
                   (MouseMove move boxLeft boxTop)).
  assert (Hdown : dispatch s (MouseDown index down targetLeft targetTop)
                  = mkInteraction (ui s) (Some index)
                      ((clientX down - targetLeft)%R,
                       (clientY down - targetTop)%R) true true).
  { cbn [dispatch]. rewrite Hnth. unfold startDrag. now rewrite Hmanual. }
  rewrite Hdown. cbn [dispatch onMouseMove].
  unfold handleDragOn. cbn [dragTable ui]. rewrite Hnth.
  rewrite (handleDrag_laidOut _ move t w h Hw Hh).
  cbn [ui tables setTables dragTable].
  split; [|split; [|reflexivity]].
  - rewrite (updateAt_same _ _ _ t Hnth). unfold dragTarget, dragEnvOf.
    cbn [drag_svgWidth drag_svgHeight containerLeft containerTop dragOffsetX
         dragOffsetY dragOffset ui fst snd].
    do 3 f_equal; f_equal; f_equal; lra.
  - intros j Hj. apply updateAt_other. congruence.
Qed.

Lemma grab_then_move_witness :
  nth_error
    (tables (ui (runEvents idleManual
                   [MouseDown 0 (mkMouseEvent 150 160) 100 100;
                    MouseMove (mkMouseEvent 250 190) 0 0]))) 1
  = nth_error (tables (ui idleManual)) 1.
Proof.
  destruct (grab_then_move idleManual 0 placedUser 280 225
              (mkMouseEvent 150 160) (mkMouseEvent 250 190) 100 100 0 0)
    as [_ [Hothers _]].
  - reflexivity.
  - reflexivity.
  - reflexivity.
  - reflexivity.
  - apply Hothers. discriminate.
Defined.
